(** * sc8pr shapes: lines, polygons and plotted vectors

    A shallow embedding of [sc8pr/shape.py] (Line, Polygon) and of
    [sc8pr/plot/shape.py] (PVector and its string parser).

    Numbers.  Python's [int] and [float] values are modelled by the real
    numbers [R]: [+], [*], [/], [hypot], [cos] and [sin] are the exact
    operations, so every statement below is about the idealised arithmetic
    the program approximates.  Division by zero, which Python reports with
    [ZeroDivisionError], is an explicit error and never the unspecified
    value of [/ 0].  Comparisons ([<], [<=], [==], truthiness of a number)
    are the boolean tests [Rltb], [Rleb], [Reqb].

    Exceptions are values of [result]; Python's [None] result is [None]. *)

From Stdlib Require Import Reals Lra Psatz List Bool Arith ZArith Ascii String.
Import ListNotations.

Open Scope R_scope.

(** ** Numbers, points and exceptions *)

Definition pt : Type := (R * R)%type.

Definition Rltb (x y : R) : bool := if Rlt_dec x y then true else false.
Definition Rleb (x y : R) : bool := if Rle_dec x y then true else false.
Definition Reqb (x y : R) : bool := if Req_dec_T x y then true else false.

(** [math.hypot] *)
Definition hypot (x y : R) : R := sqrt (x * x + y * y).

(** Euclidean distance between two points. *)
Definition dist (p q : pt) : R := hypot (fst q - fst p) (snd q - snd p).

(** The text carried by a [ValueError]. *)
Inductive message : Type :=
| EmptySequence                 (* min() arg is an empty sequence *)
| CantParse (s : string)        (* can't parse string '...' as PVectors *)
| CouldNotConvert (s : string). (* float(): could not convert string to float: '...' *)

Inductive exn : Type :=
| TypeError
| IndexError
| ZeroDivisionError
| ValueError (m : message).

(** The outcome of a call: a value, an exception, or [Fuel] when a loop
    modelled with a step budget used it up (shown below never to happen). *)
Inductive result (A : Type) : Type :=
| Ret (a : A)
| Raise (e : exn)
| Fuel.
Arguments Ret {A} a.
Arguments Raise {A} e.
Arguments Fuel {A}.

Definition bind {A B : Type} (r : result A) (k : A -> result B) : result B :=
  match r with
  | Ret a => k a
  | Raise e => Raise e
  | Fuel => Fuel
  end.

Notation "x <- r ;; k" := (bind r (fun x => k))
  (at level 61, r at next level, right associativity).

(** ** class Line (sc8pr/shape.py) *)

Module Line.

(** The attributes of a Line object.  [length = None] is Python's [None]:
    the tests [self.length is None] of [intersect] read it as "an
    unbounded line". *)
Record t : Type := mk {
  pos : pt;
  _size : pt;
  length : option R;
  u : pt;
  weight : R
}.

(** Line.resolution = 1e-10 *)
Definition resolution : R := 1 / 10 ^ 10.

(** The third constructor argument: a number (a slope) or a pair. *)
Inductive vector_arg : Type :=
| Number (m : R)
| Pair (v : pt).

(** [Line.__init__(self, start, point=None, vector=None)], run on an
    object whose stroke weight is [w] ([Shape.weight = 1] for a fresh
    object).  With neither [point] nor [vector], unpacking [None] raises
    [TypeError]; a zero direction makes [ux / u] raise
    [ZeroDivisionError]. *)
Definition __init__ (w : R) (start : pt) (point : option pt)
    (vector : option vector_arg) : result t :=
  d <- match point with
       | Some p => Ret (fst p - fst start, snd p - snd start)
       | None =>
           match vector with
           | Some (Number m) => Ret (1, m)
           | Some (Pair v) => Ret v
           | None => Raise TypeError
           end
       end ;;
  let '(ux, uy) := d in
  let l := hypot ux uy in
  if Reqb l 0 then Raise ZeroDivisionError
  else Ret {| pos := start;
              _size := (Rabs ux, Rabs uy);
              length := Some l;
              u := (ux / l, uy / l);
              weight := w |}.

(** [Line(start, point, vector)]: a fresh object. *)
Definition new (start : pt) (point : option pt)
    (vector : option vector_arg) : result t :=
  __init__ 1 start point vector.

(** [point(self, s=0)] *)
Definition point (self : t) (s : R) : pt :=
  let '(px, py) := pos self in
  let '(ux, uy) := u self in
  (px + s * ux, py + s * uy).

(** [midpoint(self)]; [None] stands for the [TypeError] of [None / 2]. *)
Definition midpoint (self : t) : option pt :=
  match length self with
  | Some l => Some (point self (l / 2))
  | None => None
  end.

(** [parameters(self, point)] *)
Definition parameters (self : t) (p : pt) : R * R :=
  let dx := fst p - fst (pos self) in
  let dy := snd p - snd (pos self) in
  let '(ux, uy) := u self in
  (ux * dx + uy * dy, ux * dy - uy * dx).

(** [closest(self, point)].  [if l:] is false for [None] and for [0]. *)
Definition closest (self : t) (p : pt) : pt :=
  let s := fst (parameters self p) in
  let s :=
    match length self with
    | Some l =>
        if Reqb l 0 then s
        else if Rltb s 0 then 0
        else if Rltb l s then l
        else s
    | None => s
    end in
  point self s.

(** What [intersect] returns besides [None]: [True] or a point. *)
Inductive hit : Type :=
| HTrue
| HPoint (p : pt).

(** The bound test of [intersect]:
    [self.length is None or (s >= 0 and s <= self.length)]. *)
Definition in_bound (self : t) (s : R) : bool :=
  match length self with
  | None => true
  | Some l => Rleb 0 s && Rleb s l
  end.

(** [intersect(self, other)] *)
Definition intersect (self other : t) : option hit :=
  let '(u1x, u1y) := u self in
  let '(u2x, u2y) := u other in
  let det := u2x * u1y - u1x * u2y in
  if negb (Reqb det 0) then
    let p1 := pos self in
    let p2 := pos other in
    let dx := fst p2 - fst p1 in
    let dy := snd p2 - snd p1 in
    let s1 := (u2x * dy - u2y * dx) / det in
    if in_bound self s1 then
      let s2 := (u1x * dy - u1y * dx) / det in
      if in_bound other s2 then Some (HPoint (point self s1)) else None
    else None
  else (* Lines are parallel *)
    let '(s0, d) := parameters self (point other 0) in
    if Rleb d resolution then
      match length self, length other with
      | None, None => Some HTrue
      | None, Some _ => option_map HPoint (midpoint other)
      | Some _, None => option_map HPoint (midpoint self)
      | Some l1, Some l2 =>
          (* Both are segments *)
          let s1 := fst (parameters self (point other l2)) in
          let '(s0, s1) := (Rmin s0 s1, Rmax s0 s1) in
          let s0 := Rmax 0 s0 in
          let s1 := Rmin l1 s1 in
          if Rleb s0 s1 then Some (HPoint (point self ((s0 + s1) / 2)))
          else None
      end
    else None.

(** [contains(self, pos)] *)
Definition contains (self : t) (p : pt) : bool :=
  Rleb (Rabs (snd (parameters self p))) (1 + weight self / 2).

(** [resize(self, size)]: rebuilds the same object through the [vector]
    path of the constructor. *)
Definition resize (self : t) (size : pt) : result t :=
  let '(ux, uy) := u self in
  let '(dx, dy) := size in
  let dx := if Rltb ux 0 then - dx else dx in
  let dy := if Rltb uy 0 then - dy else dy in
  __init__ (weight self) (pos self) None (Some (Pair (dx, dy))).

End Line.

(** ** sc8pr.geom *)

Module Geom.

(** Modelled from the spec: the module sc8pr.geom (DEG, transform2d,
    transform2dGen) is imported by both source files and is not part of
    the source tree.  The spec describes its use in [rotate] as a rigid
    rotation, "shift to origin, rotate, shift back": a point is moved by
    [preShift], turned by [rotate] degrees about the origin and moved by
    [shift]. *)
Definition DEG : R := PI / 180.

Definition transform2d (p preShift : pt) (rotate : R) (shift : pt) : pt :=
  let x := fst p + fst preShift in
  let y := snd p + snd preShift in
  let c := cos (rotate * DEG) in
  let s := sin (rotate * DEG) in
  (c * x - s * y + fst shift, s * x + c * y + snd shift).

Definition transform2dGen (pts : list pt) (preShift : pt) (rotate : R)
    (shift : pt) : list pt :=
  map (fun p => transform2d p preShift rotate shift) pts.

End Geom.

(** ** class Polygon (sc8pr/shape.py) *)

Module Polygon.

(** The attributes of a Polygon that the geometry uses.  [_rect] keeps the
    corner and the size handed to [pygame.Rect] (which rounds them to
    integers); the rendering caches [_srf] and [_segCache] are left out. *)
Record t : Type := mk {
  _pos : pt;
  _rect : pt * pt;
  vertices : list pt;
  _angle : R;
  weight : R
}.

(** The [pos] argument of the constructor: absent, an index into the
    vertices, or a point. *)
Inductive pos_arg : Type :=
| Default
| Index (i : Z)
| At (p : pt).

(** [min(...)] and [max(...)] of a generator: [ValueError] when empty. *)
Definition min_of (xs : list R) : result R :=
  match xs with
  | [] => Raise (ValueError EmptySequence)
  | x :: r => Ret (fold_left Rmin r x)
  end.

Definition max_of (xs : list R) : result R :=
  match xs with
  | [] => Raise (ValueError EmptySequence)
  | x :: r => Ret (fold_left Rmax r x)
  end.

(** [pts[i]] with Python's negative indices. *)
Definition item (pts : list pt) (i : Z) : result pt :=
  let n := Z.of_nat (List.length pts) in
  let j := if (i <? 0)%Z then (i + n)%Z else i in
  if ((j <? 0) || (n <=? j))%Z then Raise IndexError
  else match nth_error pts (Z.to_nat j) with
       | Some p => Ret p
       | None => Raise IndexError
       end.

(** [Polygon.__init__(self, pts, pos=None)], run on an object whose
    rotation state is [a] and stroke weight [w] (the class attributes
    [_angle = 0] and [weight = 1] for a fresh object). *)
Definition __init__ (a w : R) (pts : list pt) (pos : pos_arg) : result t :=
  x0 <- min_of (map fst pts) ;;
  x1 <- max_of (map fst pts) ;;
  y0 <- min_of (map snd pts) ;;
  y1 <- max_of (map snd pts) ;;
  pos <- match pos with
         | Default => Ret ((x0 + x1) / 2, (y0 + y1) / 2)
         | Index i => item pts i
         | At p => Ret p
         end ;;
  let size := (Rabs (x1 - x0), Rabs (y1 - y0)) in
  Ret {| _pos := pos;
         _rect := ((x0, y0), size);
         vertices := pts;
         _angle := a;
         weight := w |}.

Definition new (pts : list pt) (pos : pos_arg) : result t :=
  __init__ 0 1 pts pos.

(** [rotate(self, angle=0)] *)
Definition rotate (self : t) (angle : R) : result t :=
  let shift2 := _pos self in
  let shift1 := (- fst shift2, - snd shift2) in
  let pts := Geom.transform2dGen (vertices self) shift1 angle shift2 in
  self' <- __init__ (_angle self) (weight self) pts (At (_pos self)) ;;
  Ret {| _pos := _pos self';
         _rect := _rect self';
         vertices := vertices self';
         _angle := _angle self' + angle;
         weight := weight self' |}.

(** The [tail] argument of [arrow]: a number (the shaft length) or a
    point. *)
Inductive tail_arg : Type :=
| Length (t : R)
| Point (p : pt).

Section Arrow.

(** [sc8pr.geom.delta] and [math.atan2] are only needed for a tail given
    as a point; they are taken as they come. *)
Variable delta : pt -> pt -> pt.
Variable atan2 : R -> R -> R.

(** [Polygon.arrow(pos, tail, width, head, flatness)] *)
Definition arrow (pos : pt) (tail : tail_arg) (width head flatness : R)
    : list pt * R :=
  let '(tail, angle) :=
    match tail with
    | Length t => (t, 0)
    | Point p =>
        let d := delta pos p in
        (hypot (fst d) (snd d), atan2 (snd d) (fst d))
    end in
  let width := width * (tail / 2) in
  let head := head * tail in
  let y := head * flatness / 2 in
  ([(0, 0); (- head, y); (- head, width); (- tail, width);
    (- tail, - width); (- head, - width); (- head, - y)], angle).

End Arrow.

(** The setter of [pos]: every vertex moves with the anchor. *)
Definition set_pos (self : t) (pos : pt) : result t :=
  let xy := _pos self in
  let dx := fst pos - fst xy in
  let dy := snd pos - snd xy in
  let pts := map (fun p => (fst p + dx, snd p + dy)) (vertices self) in
  __init__ (_angle self) (weight self) pts (At pos).

(** The setter of [angle]. *)
Definition set_angle (self : t) (a : R) : result t :=
  rotate self (a - _angle self).

(** [_segments(self)], run to its end as [tuple(self._segments())] and
    the loop of [containsPoint] do: the edge into each vertex from the
    vertex before it, starting with the edge from the last vertex to the
    first. *)
Fixpoint segments_from (p1 : pt) (pts : list pt) : result (list Line.t) :=
  match pts with
  | [] => Ret []
  | p2 :: rest =>
      s <- Line.new p1 (Some p2) None ;;
      ss <- segments_from p2 rest ;;
      Ret (s :: ss)
  end.

Definition _segments (self : t) : result (list Line.t) :=
  p1 <- item (vertices self) (-1) ;;
  segments_from p1 (vertices self).

End Polygon.

(** ** Module-level functions of sc8pr/shape.py *)

Module Shape.

Section Arrow.

Variable delta : pt -> pt -> pt.
Variable atan2 : R -> R -> R.

(** [arrow(pos, tail, width, head, flatness, sprite)]: a Polygon and a
    PolygonSprite have the same geometry. *)
Definition arrow (pos : pt) (tail : Polygon.tail_arg)
    (width head flatness : R) : result Polygon.t :=
  let '(pts, angle) :=
    Polygon.arrow delta atan2 pos tail width head flatness in
  a <- Polygon.new pts (Polygon.Index 0) ;;
  a <- Polygon.set_pos a pos ;;
  if negb (Reqb angle 0) then Polygon.set_angle a (angle / Geom.DEG)
  else Ret a.

End Arrow.

End Shape.

(** ** Python's [re], as far as the two patterns of the parser need it *)

Module Re.

(** Patterns.  [Star] and [Plus] repeat a single-character class, which is
    all the source does ([\d+], [\d*], [[\d]*], [\s*]). *)
Inductive regex : Type :=
| Chr (c : ascii)
| Cls (p : ascii -> bool)
| Cat (r1 r2 : regex)
| Opt (r : regex)
| Star (p : ascii -> bool)
| Plus (p : ascii -> bool).

(** Backtracking search in Python's order (greedy first), in
    continuation-passing style: [k] receives what is left of the subject
    after the pattern and answers whether the rest of the match succeeds. *)
Fixpoint star {A : Type} (p : ascii -> bool) (s : list ascii)
    (k : list ascii -> option A) : option A :=
  match s with
  | c :: s' =>
      if p c then
        match star p s' k with
        | Some a => Some a
        | None => k s
        end
      else k s
  | [] => k []
  end.

Fixpoint run {A : Type} (r : regex) (s : list ascii)
    (k : list ascii -> option A) : option A :=
  match r with
  | Chr c =>
      match s with
      | c' :: s' => if Ascii.eqb c c' then k s' else None
      | [] => None
      end
  | Cls p =>
      match s with
      | c' :: s' => if p c' then k s' else None
      | [] => None
      end
  | Cat r1 r2 => run r1 s (fun s' => run r2 s' k)
  | Opt r1 =>
      match run r1 s k with
      | Some a => Some a
      | None => k s
      end
  | Star p => star p s k
  | Plus p =>
      match s with
      | c' :: s' => if p c' then star p s' k else None
      | [] => None
      end
  end.

(** [pattern.match(s).group()]: the text matched at the start of [s], or
    [None]. *)
Definition match_group (r : regex) (s : list ascii) : option (list ascii) :=
  run r s (fun rest => Some (firstn (List.length s - List.length rest) s)).

Definition one_of (cs : list ascii) (c : ascii) : bool :=
  existsb (Ascii.eqb c) cs.

(** [\d], on code points below 256. *)
Definition digit (c : ascii) : bool :=
  let n := nat_of_ascii c in ((48 <=? n) && (n <=? 57))%nat.

(** [\s], on code points below 256: tab to carriage return, the four
    separators 28..31, space, NEL and the no-break space. *)
Definition space (c : ascii) : bool :=
  let n := nat_of_ascii c in
  (((9 <=? n) && (n <=? 13)) || ((28 <=? n) && (n <=? 32))
   || (n =? 133) || (n =? 160))%nat.

(** [re.subn("\s*", "", string)[0]]: every run of white space is
    replaced by nothing. *)
Definition remove_space (s : list ascii) : list ascii :=
  filter (fun c => negb (space c)) s.

End Re.

(** ** class PVector (sc8pr/plot/shape.py) *)

Module PVector.

(** A PVector is a [pygame.math.Vector2] (components [x], [y]) with a
    [tail]; the drawing attributes are left out. *)
Record t : Type := mk {
  x : R;
  y : R;
  tail : pt
}.

(** [Vector2.from_polar((r, phi))], [phi] in degrees, in place. *)
Definition from_polar (self : t) (r phi : R) : t :=
  {| x := r * cos (phi * (PI / 180));
     y := r * sin (phi * (PI / 180));
     tail := tail self |}.

(** [Vector2.rotate_ip(angle)], [angle] in degrees, in place. *)
Definition rotate_ip (self : t) (angle : R) : t :=
  let c := cos (angle * (PI / 180)) in
  let s := sin (angle * (PI / 180)) in
  {| x := c * x self - s * y self;
     y := s * x self + c * y self;
     tail := tail self |}.

(** The first constructor argument: absent, a number, a plain [Vector2]
    or a PVector. *)
Inductive mag_arg : Type :=
| NoMag
| Mag (r : R)
| OfVector2 (v : pt)
| OfPVector (v : t).

(** [PVector.__init__(self, mag=None, theta=0, xy=(0,0))]; the class
    attribute [tail = 0, 0] is the tail of a fresh object. *)
Definition __init__ (mag : mag_arg) (theta : R) (xy : pt) : t :=
  let '(xy, tl, mag) :=
    match mag with
    | OfVector2 v => (v, (0, 0), None)
    | OfPVector v => ((x v, y v), tail v, None)
    | Mag r => (xy, (0, 0), Some r)
    | NoMag => (xy, (0, 0), None)
    end in
  let self := {| x := fst xy; y := snd xy; tail := tl |} in
  match mag with
  | Some m =>
      let '(m, theta) :=
        if Rltb m 0 then (- m, theta + 180) else (m, theta) in
      from_polar self m theta
  | None => self
  end.

(** [csPos]: midpoint of tail and tip. *)
Definition csPos (self : t) : pt :=
  (fst (tail self) + x self / 2, snd (tail self) + y self / 2).

(** [tip] *)
Definition tip (self : t) : pt :=
  (fst (tail self) + x self, snd (tail self) + y self).

Definition set_tail (self : t) (p : pt) : t :=
  {| x := x self; y := y self; tail := p |}.

(** [rotate(self, angle, xy=None)].  [preShift=True] asks
    [transform2d] to shift by the opposite of [shift] first. *)
Definition rotate (self : t) (angle : R) (xy : option pt) : t :=
  let xy := match xy with Some p => p | None => csPos self end in
  let self :=
    set_tail self
      (Geom.transform2d (tail self) (- fst xy, - snd xy) angle xy) in
  rotate_ip self angle.

(** [PVector.sum(args)] *)
Definition sum (args : list t) : t :=
  let s := fold_left (fun s v => (fst s + x v, snd s + y v)) args (0, 0) in
  __init__ NoMag 0 s.

(** [other * self] for a number [other] ([__rmul__]). *)
Definition __rmul__ (self : t) (other : R) : t :=
  __init__ NoMag 0 (other * x self, other * y self).

(** Objects.  A Python list of PVectors holds references: the same object
    may occur twice and an assignment to [v.tail] is seen through every
    reference.  A [heap] gives the current value of every object. *)
Definition loc : Type := nat.
Definition heap : Type := loc -> t.

Definition assign_tail (h : heap) (v : loc) (p : pt) : heap :=
  fun l => if Nat.eqb l v then set_tail (h v) p else h l.

(** The loop [for v in vecs[1:]: v.tail = v0.tip; v0 = v]. *)
Fixpoint tipToTail_loop (h : heap) (v0 : loc) (rest : list loc) : heap :=
  match rest with
  | [] => h
  | v :: rest' => tipToTail_loop (assign_tail h v (tip (h v0))) v rest'
  end.

(** [PVector.tipToTail(vecs)]: the heap after the call and the list
    returned (the argument itself). *)
Definition tipToTail (h : heap) (vecs : list loc) : heap * list loc :=
  match vecs with
  | v0 :: v1 :: rest => (tipToTail_loop h v0 (v1 :: rest), vecs)
  | _ => (h, vecs)
  end.

(** A list of freshly created objects: object [i] is the [i]-th value. *)
Definition fresh (vecs : list t) : heap * list loc :=
  (fun l => nth l vecs (__init__ NoMag 0 (0, 0)), seq 0 (List.length vecs)).

(** The values of a list of objects. *)
Definition values (hv : heap * list loc) : list t :=
  map (fst hv) (snd hv).

(** The setters of [tip] and [csPos]. *)
Definition set_tip (self : t) (xy : pt) : t :=
  set_tail self (fst xy - x self, snd xy - y self).

Definition set_csPos (self : t) (xy : pt) : t :=
  set_tail self (fst xy - x self / 2, snd xy - y self / 2).

(** [mag]: [Vector2.length()]. *)
Definition mag (self : t) : R := hypot (x self) (y self).

(** [Vector2.normalize_ip()]; [None] is pygame's [ValueError] for a
    vector of length zero. *)
Definition normalize_ip (self : t) : option t :=
  if Reqb (mag self) 0 then None
  else Some {| x := x self / mag self;
               y := y self / mag self;
               tail := tail self |}.

(** [__neg__], [__add__], [__sub__], [__truediv__]: the result is a new
    PVector built from the components alone. *)
Definition __neg__ (self : t) : t :=
  __init__ NoMag 0 (- x self, - y self).

Definition __add__ (self other : t) : t :=
  __init__ NoMag 0 (x self + x other, y self + y other).

Definition __sub__ (self other : t) : t :=
  __init__ NoMag 0 (x self - x other, y self - y other).

Definition __truediv__ (self : t) (d : R) : result t :=
  if Reqb d 0 then Raise ZeroDivisionError
  else Ret (__init__ NoMag 0 (x self / d, y self / d)).

(** [self * other]: a number scales the vector, a vector gives the dot
    product, a plain number. *)
Inductive operand : Type :=
| Scalar (c : R)
| Vector (v : t).

Inductive product : Type :=
| Number (r : R)
| Scaled (v : t).

Definition __mul__ (self : t) (other : operand) : product :=
  match other with
  | Scalar c => Scaled (__init__ NoMag 0 (x self * c, y self * c))
  | Vector v => Number (x self * x v + y self * y v)
  end.

(** The direction argument of [proj]: an angle in degrees, another
    PVector, or the vector itself (the call [v.proj(v)]). *)
Inductive direction_arg : Type :=
| Angle (a : R)
| Along (u : t)
| Itself.

(** [proj(self, u)]: the projection and the unit vector used.  For a
    PVector argument [normalize_ip] changes that object in place and the
    unit vector returned is its new value.  In [v.proj(v)] the object
    normalised is [self], so the products that follow read the normalised
    vector.  [None] is the [ValueError] of [normalize_ip]. *)
Definition proj (self : t) (u : direction_arg) : option (t * t) :=
  match
    match u with
    | Angle a => Some (__init__ (Mag 1) a (0, 0), self)
    | Along v => option_map (fun v' => (v', self)) (normalize_ip v)
    | Itself => option_map (fun v' => (v', v')) (normalize_ip self)
    end
  with
  | Some (u, self) =>
      match __mul__ u (Vector self) with
      | Number d =>
          match __mul__ u (Scalar d) with
          | Scaled p => Some (set_tail p (tail self), u)
          | Number _ => None
          end
      | Scaled _ => None
      end
  | None => None
  end.

(** [components(self)]: the list [[x, y]]. *)
Definition components (self : t) : option (list t) :=
  match proj self (Angle 0), proj self (Angle 90) with
  | Some (cx, _), Some (cy, _) => Some [cx; set_tip cy (tip self)]
  | _, _ => None
  end.

(** *** The parser *)

Definition _sign : Re.regex :=
  Re.Opt (Re.Cls (Re.one_of ["-"; "|"; "+"]%char)).

Definition _num : Re.regex :=
  Re.Cat _sign
    (Re.Cat (Re.Plus Re.digit)
       (Re.Cat (Re.Opt (Re.Chr "."))
          (Re.Cat (Re.Star Re.digit)
             (Re.Opt
                (Re.Cat (Re.Cls (Re.one_of ["e"; "|"; "E"]%char))
                   (Re.Cat _sign (Re.Star Re.digit))))))).

Inductive form : Type :=
| Cartesian
| Polar.

Definition _re (f : form) : Re.regex :=
  match f with
  | Cartesian =>
      Re.Cat (Re.Chr "(")
        (Re.Cat _num (Re.Cat (Re.Chr ",") (Re.Cat _num (Re.Chr ")"))))
  | Polar => Re.Cat _num (Re.Cat (Re.Chr "@") _num)
  end.

(** [str.split(sep)] for a one-character separator. *)
Fixpoint split (sep : ascii) (s : list ascii) : list (list ascii) :=
  match s with
  | [] => [[]]
  | c :: r =>
      if Ascii.eqb c sep then [] :: split sep r
      else match split sep r with
           | h :: t => (c :: h) :: t
           | [] => [[c]]
           end
  end.

Fixpoint span (p : ascii -> bool) (s : list ascii)
    : list ascii * list ascii :=
  match s with
  | c :: r =>
      if p c then let '(a, b) := span p r in (c :: a, b) else ([], s)
  | [] => ([], [])
  end.

Definition Z_of_digits (ds : list ascii) : Z :=
  fold_left (fun a c => (10 * a + (Z.of_nat (nat_of_ascii c) - 48))%Z) ds 0%Z.

Definition take_sign (s : list ascii) : bool * list ascii :=
  match s with
  | c :: r =>
      if Ascii.eqb c "+" then (false, r)
      else if Ascii.eqb c "-" then (true, r)
      else (false, s)
  | [] => (false, s)
  end.

(** [float(s)] for a text made of the characters the patterns let
    through (digits, [.], [e], [E], [|], [+], [-]): an optional sign,
    digits with an optional point and at least one digit, and an optional
    exponent with at least one digit.  The value is the exact decimal. *)
Definition float (s : list ascii) : result R :=
  let bad := Raise (ValueError (CouldNotConvert (string_of_list_ascii s))) in
  let '(neg, s1) := take_sign s in
  let '(ip, s2) := span Re.digit s1 in
  let '(fp, s3) :=
    match s2 with
    | c :: r => if Ascii.eqb c "." then span Re.digit r else ([], s2)
    | [] => ([], s2)
    end in
  match ip ++ fp with
  | [] => bad
  | _ :: _ =>
      let m := Z_of_digits (ip ++ fp) in
      let m := if neg then (- m)%Z else m in
      let k := Z.of_nat (List.length fp) in
      match s3 with
      | [] => Ret (IZR m * powerRZ 10 (- k))
      | c :: r =>
          if Re.one_of ["e"; "E"]%char c then
            let '(eneg, r1) := take_sign r in
            let '(ed, r2) := span Re.digit r1 in
            match ed, r2 with
            | _ :: _, [] =>
                let e := Z_of_digits ed in
                let e := if eneg then (- e)%Z else e in
                Ret (IZR m * powerRZ 10 (e - k))
            | _, _ => bad
            end
          else bad
      end
  end.

(** [s[i]] on a list of strings. *)
Definition piece (l : list (list ascii)) (i : nat) : result (list ascii) :=
  match nth_error l i with
  | Some s => Ret s
  | None => Raise IndexError
  end.

(** The body of [_parse] after a match [m]: the two numerals are cut out
    of the text, converted by [float] and handed to the constructor. *)
Definition to_vector (f : form) (m : list ascii) : result t :=
  match f with
  | Polar =>
      s0 <- piece (split "@" m) 0 ;;
      r <- float s0 ;;
      s1 <- piece (split "@" m) 1 ;;
      th <- float s1 ;;
      Ret (__init__ (Mag r) th (0, 0))
  | Cartesian =>
      s0 <- piece (split "," (removelast (tl m))) 0 ;;
      a <- float s0 ;;
      s1 <- piece (split "," (removelast (tl m))) 1 ;;
      b <- float s1 ;;
      Ret (__init__ NoMag 0 (a, b))
  end.

(** [_parse(expr, form)]: [(n, v)] or [(None, None)]. *)
Definition _parse (expr : list ascii) (f : form) : result (option (nat * t)) :=
  match Re.match_group (_re f) expr with
  | Some m =>
      let n := List.length m in
      v <- to_vector f m ;;
      Ret (Some (n, v))
  | None => Ret None
  end.

(** The [while len(expr):] loop of [parse]: what is left of [expr] and
    the vectors collected when the loop ends. *)
Fixpoint parse_loop (fuel : nat) (expr : list ascii) (vecs : list t)
    : result (list ascii * list t) :=
  match fuel with
  | O => Fuel
  | S fuel' =>
      match expr with
      | [] => Ret (expr, vecs)
      | c :: rest =>
          let neg := Ascii.eqb c "-" in
          let expr := if Re.one_of ["+"; "-"]%char c then rest else expr in
          nv <- _parse expr Cartesian ;;
          nv <- match nv with
                | Some (S _, _) => Ret nv
                | _ => _parse expr Polar
                end ;;
          match nv with
          | Some (S n', v) =>
              parse_loop fuel' (skipn (S n') expr)
                (vecs ++ [if neg then __rmul__ v (-1) else v])
          | _ => Ret (expr, vecs)
          end
      end
  end.

(** [PVector.parse(string)]: the values of the list returned. *)
Definition parse (string : string) : result (list t) :=
  let expr := Re.remove_space (list_ascii_of_string string) in
  ev <- parse_loop (S (List.length expr)) expr [] ;;
  match fst ev with
  | _ :: _ => Raise (ValueError (CantParse string))
  | [] => Ret (values (tipToTail (fst (fresh (snd ev))) (snd (fresh (snd ev)))))
  end.

End PVector.

(** ** Notions the statements use *)

(** A unit vector. *)
Definition unit_vector (v : pt) : Prop := fst v * fst v + snd v * snd v = 1.

(** The determinant [intersect] tests and the two parameters it solves
    for when the determinant is not zero. *)
Definition det (self other : Line.t) : R :=
  fst (Line.u other) * snd (Line.u self)
  - fst (Line.u self) * snd (Line.u other).

Definition cramer_s1 (self other : Line.t) : R :=
  (fst (Line.u other) * (snd (Line.pos other) - snd (Line.pos self))
   - snd (Line.u other) * (fst (Line.pos other) - fst (Line.pos self)))
  / det self other.

Definition cramer_s2 (self other : Line.t) : R :=
  (fst (Line.u self) * (snd (Line.pos other) - snd (Line.pos self))
   - snd (Line.u self) * (fst (Line.pos other) - fst (Line.pos self)))
  / det self other.

(** The bound on a parameter: within [[0, length]], and none when the
    length is [None]. *)
Definition within_length (len : option R) (s : R) : Prop :=
  match len with
  | None => True
  | Some l => 0 <= s <= l
  end.

(** [q] is a point of the segment of length [l] that starts at the anchor
    of [S]. *)
Definition on_segment (S : Line.t) (l : R) (q : pt) : Prop :=
  exists t : R, 0 <= t <= l /\ q = Line.point S t.

(** The clamping of [closest]. *)
Definition clamp (l s : R) : R :=
  if Rltb s 0 then 0 else if Rltb l s then l else s.

(** The direction the constructor of Line normalises. *)
Definition direction (start : pt) (point : option pt)
    (vector : option Line.vector_arg) : option pt :=
  match point, vector with
  | Some p, _ => Some (fst p - fst start, snd p - snd start)
  | None, Some (Line.Number m) => Some (1, m)
  | None, Some (Line.Pair v) => Some v
  | None, None => None
  end.

(** Reflection in the shaft axis of an arrow (the x axis). *)
Definition mirror (p : pt) : pt := (fst p, - snd p).

(** The unit square, anchored at its centre, as [Polygon] builds it from
    [[(0,0), (1,0), (1,1), (0,1)]]. *)
Definition unit_square : Polygon.t :=
  Polygon.mk (1 / 2, 1 / 2) ((0, 0), (1, 1))
    [(0, 0); (1, 0); (1, 1); (0, 1)] 0 1.

(** *** What a pattern matches

    The texts a pattern matches, independently of the search order. *)
Fixpoint lang (r : Re.regex) (m : list ascii) : Prop :=
  match r with
  | Re.Chr c => m = [c]
  | Re.Cls p => exists c : ascii, m = [c] /\ p c = true
  | Re.Cat r1 r2 =>
      exists m1 m2 : list ascii, m = m1 ++ m2 /\ lang r1 m1 /\ lang r2 m2
  | Re.Opt r1 => m = [] \/ lang r1 m
  | Re.Star p => forallb p m = true
  | Re.Plus p => m <> [] /\ forallb p m = true
  end.

(** The characters a pattern can match. *)
Fixpoint alphabet (r : Re.regex) (c : ascii) : bool :=
  match r with
  | Re.Chr c' => Ascii.eqb c' c
  | Re.Cls p => p c
  | Re.Cat r1 r2 => alphabet r1 c || alphabet r2 c
  | Re.Opt r1 => alphabet r1 c
  | Re.Star p => p c
  | Re.Plus p => p c
  end.

(** *** The terms of a string

    The loop of [parse] without the conversion of the numerals: a sign is
    dropped, then the Cartesian pattern and, failing that, the polar
    pattern are matched at the front.  [lex] gives the terms matched (sign,
    form, text) and the text left where the loop stops. *)
Definition term : Type := (bool * PVector.form * list ascii)%type.

Definition match_term (expr : list ascii)
    : option (PVector.form * list ascii) :=
  match Re.match_group (PVector._re PVector.Cartesian) expr with
  | Some m => Some (PVector.Cartesian, m)
  | None =>
      match Re.match_group (PVector._re PVector.Polar) expr with
      | Some m => Some (PVector.Polar, m)
      | None => None
      end
  end.

Fixpoint lex (fuel : nat) (expr : list ascii) : list term * list ascii :=
  match fuel with
  | O => ([], expr)
  | S fuel' =>
      match expr with
      | [] => ([], [])
      | c :: rest =>
          let neg := Ascii.eqb c "-" in
          let expr := if Re.one_of ["+"; "-"]%char c then rest else expr in
          match match_term expr with
          | Some (f, m) =>
              let '(ts, r) := lex fuel' (skipn (List.length m) expr) in
              ((neg, f, m) :: ts, r)
          | None => ([], expr)
          end
      end
  end.

Definition stripped (s : string) : list ascii :=
  Re.remove_space (list_ascii_of_string s).

(** The terms the loop of [parse] goes through and the value of its
    variable [expr] when it stops. *)
Definition terms (s : string) : list term :=
  fst (lex (S (List.length (stripped s))) (stripped s)).

Definition left_in_expr (s : string) : list ascii :=
  snd (lex (S (List.length (stripped s))) (stripped s)).

(** *** Signed terms and what they leave unmatched

    A signed term is an optional [+] or [-] followed by a text of the
    Cartesian or of the polar pattern.  A sign is matched only together
    with the term that follows it: when no term follows, the sign stays
    in the unmatched text. *)
Definition signed_body (expr : list ascii) : list ascii :=
  match expr with
  | c :: rest => if Re.one_of ["+"; "-"]%char c then rest else expr
  | [] => []
  end.

Definition leading_minus (expr : list ascii) : bool :=
  match expr with
  | c :: _ => Ascii.eqb c "-"
  | [] => false
  end.

Fixpoint split_terms (fuel : nat) (expr : list ascii)
    : list term * list ascii :=
  match fuel with
  | O => ([], expr)
  | S fuel' =>
      match match_term (signed_body expr) with
      | Some (f, m) =>
          let '(ts, r) :=
            split_terms fuel' (skipn (List.length m) (signed_body expr)) in
          ((leading_minus expr, f, m) :: ts, r)
      | None => ([], expr)
      end
  end.

(** The signed terms matched from the front of a string, white space
    removed, and the text left unmatched after them. *)
Definition signed_terms (s : string) : list term :=
  fst (split_terms (S (List.length (stripped s))) (stripped s)).

Definition unmatched (s : string) : list ascii :=
  snd (split_terms (S (List.length (stripped s))) (stripped s)).

(** An unmatched text that is a single sign. *)
Definition dangling_sign (r : list ascii) : Prop :=
  r = ["+"%char] \/ r = ["-"%char].

(** What makes a term of [lex]: a text of its pattern. *)
Definition well_matched (t : term) : Prop :=
  lang (PVector._re (snd (fst t))) (snd t).

(** The vector of a term, when [float] accepts its numerals. *)
Definition term_vector (t : term) : result PVector.t :=
  let '(neg, f, m) := t in
  v <- PVector.to_vector f m ;;
  Ret (if neg then PVector.__rmul__ v (-1) else v).

(** A term with a numeral that [float] rejects. *)
Definition bad_numeral (t : term) : bool :=
  match term_vector t with
  | Ret _ => false
  | _ => true
  end.

(** The vectors of a list of terms, converted from left to right. *)
Fixpoint convert_all (ts : list term) : result (list PVector.t) :=
  match ts with
  | [] => Ret []
  | t :: ts' =>
      v <- term_vector t ;;
      vs <- convert_all ts' ;;
      Ret (v :: vs)
  end.

(** The layout [parse] gives to the vectors it has read. *)
Definition laid_out (vs : list PVector.t) : list PVector.t :=
  PVector.values
    (PVector.tipToTail (fst (PVector.fresh vs)) (snd (PVector.fresh vs))).

Definition is_ValueError {A : Type} (r : result A) : Prop :=
  exists m : message, r = Raise (ValueError m).

(** The least and the greatest number of a list. *)
Definition is_min (m : R) (xs : list R) : Prop :=
  In m xs /\ forall x : R, In x xs -> m <= x.

Definition is_max (m : R) (xs : list R) : Prop :=
  In m xs /\ forall x : R, In x xs -> x <= m.

(** A point moved by an offset. *)
Definition translate (d p : pt) : pt := (fst p + fst d, snd p + snd d).

(** Going from [p1] through the points of the list, no step stays in
    place. *)
Fixpoint no_repeat (p1 : pt) (pts : list pt) : Prop :=
  match pts with
  | [] => True
  | p2 :: rest => p1 <> p2 /\ no_repeat p2 rest
  end.

(** The far end of a segment: [point(length)]. *)
Definition far_end (s : Line.t) : option pt :=
  match Line.length s with
  | Some l => Some (Line.point s l)
  | None => None
  end.

(** The sum of the components of a list of vectors. *)
Definition resultant (vs : list PVector.t) : pt :=
  fold_left (fun s v => (fst s + PVector.x v, snd s + PVector.y v)) vs (0, 0).

(** A list of placed vectors in which each one starts where the one
    before it ends. *)
Fixpoint chained (vs : list PVector.t) : Prop :=
  match vs with
  | [] => True
  | v :: rest =>
      match rest with
      | [] => True
      | v' :: _ => PVector.tail v' = PVector.tip v /\ chained rest
      end
  end.

(** ** Comparisons *)

Lemma Rltb_true (x y : R) : Rltb x y = true <-> x < y.
Proof. unfold Rltb. destruct (Rlt_dec x y); split; intros; try easy. Qed.

Lemma Rleb_true (x y : R) : Rleb x y = true <-> x <= y.
Proof. unfold Rleb. destruct (Rle_dec x y); split; intros; try easy. Qed.

Lemma Reqb_true (x y : R) : Reqb x y = true <-> x = y.
Proof. unfold Reqb. destruct (Req_dec_T x y); split; intros; try easy. Qed.

Lemma Rltb_false (x y : R) : Rltb x y = false <-> y <= x.
Proof.
  unfold Rltb. destruct (Rlt_dec x y); split; intros; try easy; lra.
Qed.

Lemma Rleb_false (x y : R) : Rleb x y = false <-> y < x.
Proof.
  unfold Rleb. destruct (Rle_dec x y); split; intros; try easy; lra.
Qed.

Lemma Reqb_false (x y : R) : Reqb x y = false <-> x <> y.
Proof. unfold Reqb. destruct (Req_dec_T x y); split; intros; try easy. Qed.

(** Decide the comparisons in the goal, keeping what they say. *)
Ltac cmp :=
  repeat match goal with
  | |- context [Rltb ?a ?b] =>
      let E := fresh "E" in
      destruct (Rltb a b) eqn:E;
      [apply Rltb_true in E | apply Rltb_false in E]
  | |- context [Rleb ?a ?b] =>
      let E := fresh "E" in
      destruct (Rleb a b) eqn:E;
      [apply Rleb_true in E | apply Rleb_false in E]
  | |- context [Reqb ?a ?b] =>
      let E := fresh "E" in
      destruct (Reqb a b) eqn:E;
      [apply Reqb_true in E | apply Reqb_false in E]
  end.

Lemma hypot_nonneg (a b : R) : 0 <= hypot a b.
Proof. apply sqrt_pos. Qed.

Lemma hypot_sqr (a b : R) : hypot a b * hypot a b = a * a + b * b.
Proof. unfold hypot. apply sqrt_sqrt. nra. Qed.

Lemma hypot_le (a b c d : R) :
  a * a + b * b <= c * c + d * d -> hypot a b <= hypot c d.
Proof. intros H. unfold hypot. apply sqrt_le_1_alt. exact H. Qed.

Lemma pair_eq (a b c d : R) : a = c -> b = d -> (a, b) = (c, d).
Proof. intros -> ->. reflexivity. Qed.

(** ** Line *)

(** What the constructor establishes: a unit direction and a positive
    length, the norm of the direction it was given. *)
Lemma Line_init_inv (w : R) (start : pt) (point : option pt)
    (vector : option Line.vector_arg) (L : Line.t) :
  Line.__init__ w start point vector = Ret L ->
  exists d : pt,
    direction start point vector = Some d /\
    0 < hypot (fst d) (snd d) /\
    Line.length L = Some (hypot (fst d) (snd d)) /\
    Line.u L = (fst d / hypot (fst d) (snd d), snd d / hypot (fst d) (snd d)) /\
    Line.pos L = start /\ Line.weight L = w /\
    unit_vector (Line.u L).
Proof.
  unfold Line.__init__, direction.
  set (r := match point with Some p => _ | None => _ end).
  intros H.
  assert (Hd : exists d, r = Ret d /\
            match point, vector with
            | Some p, _ => Some (fst p - fst start, snd p - snd start)
            | None, Some (Line.Number m) => Some (1, m)
            | None, Some (Line.Pair v) => Some v
            | None, None => None
            end = Some d).
  { subst r. destruct point as [p|]; [eauto|].
    destruct vector as [[m|v]|]; eauto. simpl in H. discriminate. }
  destruct Hd as [[ux uy] [Hr Hd]]. rewrite Hr in H. simpl in H.
  exists (ux, uy). split; [exact Hd|]. simpl.
  destruct (Reqb (hypot ux uy) 0) eqn:E; [discriminate|].
  apply Reqb_false in E.
  pose proof (hypot_nonneg ux uy) as Hn.
  pose proof (hypot_sqr ux uy) as Hs.
  injection H as <-. simpl.
  repeat split; try lra.
  unfold unit_vector; simpl. field_simplify_eq; [|exact E]. nra.
Qed.

Lemma in_bound_spec (L : Line.t) (s : R) :
  Line.in_bound L s = true <->
  match Line.length L with
  | None => True
  | Some l => 0 <= s <= l
  end.
Proof.
  unfold Line.in_bound. destruct (Line.length L) as [l|]; [|tauto].
  rewrite andb_true_iff, !Rleb_true. tauto.
Qed.

(** C2.  For two lines that are not parallel ([det] is not zero), let
    [s1] and [s2] be the parameters along [self] and along [other] that
    Cramer's rule gives.  When [s1] is within [[0, length]] of [self] and
    [s2] within [[0, length]] of [other], a [None] length setting no
    bound, [intersect] returns [self.point(s1)]; in every other case it
    returns [None].  So it returns a point exactly under these bounds,
    and never [True].  The point lies on both lines, and no other pair of
    parameters gives a common point of the two lines. *)
Theorem intersect_nonparallel (self other : Line.t) :
  det self other <> 0 ->
  (within_length (Line.length self) (cramer_s1 self other)
   /\ within_length (Line.length other) (cramer_s2 self other) ->
   Line.intersect self other
   = Some (Line.HPoint (Line.point self (cramer_s1 self other))))
  /\ (~ (within_length (Line.length self) (cramer_s1 self other)
         /\ within_length (Line.length other) (cramer_s2 self other)) ->
      Line.intersect self other = None)
  /\ (forall h : Line.hit,
        Line.intersect self other = Some h ->
        h = Line.HPoint (Line.point self (cramer_s1 self other))
        /\ within_length (Line.length self) (cramer_s1 self other)
        /\ within_length (Line.length other) (cramer_s2 self other))
  /\ Line.point self (cramer_s1 self other)
     = Line.point other (cramer_s2 self other)
  /\ (forall a b : R,
        Line.point self a = Line.point other b ->
        a = cramer_s1 self other /\ b = cramer_s2 self other).
Proof.
  intros Hdet.
  assert (Hv : Line.intersect self other
               = (if Line.in_bound self (cramer_s1 self other)
                     && Line.in_bound other (cramer_s2 self other)
                  then Some (Line.HPoint
                               (Line.point self (cramer_s1 self other)))
                  else None)).
  { revert Hdet. unfold det, cramer_s1, cramer_s2, det, Line.intersect.
    destruct (Line.u self) as [u1x u1y], (Line.u other) as [u2x u2y].
    cbn [fst snd]. intros Hdet.
    destruct (Reqb (u2x * u1y - u1x * u2y) 0) eqn:E;
      [apply Reqb_true in E; contradiction|].
    cbn [negb]. destruct (Line.in_bound self _); [|reflexivity].
    destruct (Line.in_bound other _); reflexivity. }
  pose proof (in_bound_spec self (cramer_s1 self other)) as B1.
  pose proof (in_bound_spec other (cramer_s2 self other)) as B2.
  fold (within_length (Line.length self) (cramer_s1 self other)) in B1.
  fold (within_length (Line.length other) (cramer_s2 self other)) in B2.
  rewrite Hv. split; [|split; [|split]].
  - intros [W1 W2]. apply B1 in W1. apply B2 in W2. rewrite W1, W2.
    reflexivity.
  - intros Hn.
    destruct (Line.in_bound self _) eqn:E1; [|reflexivity].
    destruct (Line.in_bound other _) eqn:E2; [|reflexivity].
    exfalso. apply Hn. split; [apply B1 | apply B2]; reflexivity.
  - intros h Hh.
    destruct (Line.in_bound self _) eqn:E1; [|discriminate].
    destruct (Line.in_bound other _) eqn:E2; [|discriminate].
    injection Hh as <-. split; [reflexivity|].
    split; [apply B1 | apply B2]; reflexivity.
  - revert Hdet. unfold det, cramer_s1, cramer_s2, det, Line.point.
    destruct self as [[p1x p1y] sz1 l1 [u1x u1y] w1].
    destruct other as [[p2x p2y] sz2 l2 [u2x u2y] w2].
    cbn [Line.u Line.pos fst snd]. intros Hdet.
    set (D := u2x * u1y - u1x * u2y) in *. split.
    + apply pair_eq; field_simplify_eq; trivial; unfold D; ring.
    + intros a b H. injection H as Hx Hy.
      split; field_simplify_eq; trivial; unfold D; nra.
Qed.

(** Two segments of length 2 that cross at right angles in [(1, 0)]. *)
Lemma intersect_nonparallel_witness :
  Line.intersect
    (Line.mk (0, 0) (2, 0) (Some 2) (1, 0) 1)
    (Line.mk (1, -1) (0, 2) (Some 2) (0, 1) 1)
  = Some (Line.HPoint
            (Line.point (Line.mk (0, 0) (2, 0) (Some 2) (1, 0) 1)
               (cramer_s1 (Line.mk (0, 0) (2, 0) (Some 2) (1, 0) 1)
                  (Line.mk (1, -1) (0, 2) (Some 2) (0, 1) 1)))).
Proof.
  assert (Hd : det (Line.mk (0, 0) (2, 0) (Some 2) (1, 0) 1)
                 (Line.mk (1, -1) (0, 2) (Some 2) (0, 1) 1) <> 0)
    by (unfold det; simpl; lra).
  apply (intersect_nonparallel
           (Line.mk (0, 0) (2, 0) (Some 2) (1, 0) 1)
           (Line.mk (1, -1) (0, 2) (Some 2) (0, 1) 1) Hd).
  assert (E1 : cramer_s1 (Line.mk (0, 0) (2, 0) (Some 2) (1, 0) 1)
                 (Line.mk (1, -1) (0, 2) (Some 2) (0, 1) 1) = 1)
    by (unfold cramer_s1, det; simpl; field).
  assert (E2 : cramer_s2 (Line.mk (0, 0) (2, 0) (Some 2) (1, 0) 1)
                 (Line.mk (1, -1) (0, 2) (Some 2) (0, 1) 1) = 1)
    by (unfold cramer_s2, det; simpl; field).
  rewrite E1, E2. simpl. lra.
Defined.

Lemma closest_clamp (S : Line.t) (l : R) (P : pt) :
  Line.length S = Some l -> 0 < l ->
  Line.closest S P = Line.point S (clamp l (fst (Line.parameters S P))).
Proof.
  intros Hl Hpos. unfold Line.closest, clamp. rewrite Hl.
  destruct (Reqb l 0) eqn:E; [apply Reqb_true in E; lra|]. reflexivity.
Qed.

Lemma clamp_range (l s : R) : 0 < l -> 0 <= clamp l s <= l.
Proof. intros Hl. unfold clamp. cmp; lra. Qed.

(** C3.  For a segment [S] (unit direction, length [l > 0]) and a point
    [P], [closest] projects [P] on the line, clamps the parameter to
    [[0, l]] and returns the point at that parameter; the point lies on
    [S] and no point of [S] is nearer to [P]. *)
Theorem closest_minimizes (S : Line.t) (l : R) (P : pt) :
  Line.length S = Some l -> 0 < l -> unit_vector (Line.u S) ->
  Line.closest S P = Line.point S (clamp l (fst (Line.parameters S P)))
  /\ on_segment S l (Line.closest S P)
  /\ (forall q : pt, on_segment S l q ->
        dist (Line.closest S P) P <= dist q P).
Proof.
  intros Hl Hpos Hu.
  rewrite (closest_clamp S l P Hl Hpos).
  split; [reflexivity|]. split.
  - exists (clamp l (fst (Line.parameters S P))).
    split; [apply clamp_range; exact Hpos | reflexivity].
  - intros q [t [Ht ->]].
    unfold dist. apply hypot_le.
    unfold clamp, Line.parameters, Line.point, unit_vector in *.
    destruct S as [[px py] sz len [ux uy] w].
    destruct P as [Px Py]. cbn [Line.u Line.pos fst snd] in *.
    set (s := ux * (Px - px) + uy * (Py - py)).
    assert (Hq : forall a : R,
               (Px - (px + a * ux)) * (Px - (px + a * ux))
               + (Py - (py + a * uy)) * (Py - (py + a * uy))
               = (a - s) * (a - s)
                 + ((Px - px) * (Px - px) + (Py - py) * (Py - py) - s * s)).
    { intros a. unfold s.
      replace (a * ux) with (ux * a) by ring.
      replace (a * uy) with (uy * a) by ring.
      nra. }
    clearbody s.
    pose proof (Rle_0_sqr (t - s)) as Hsq. unfold Rsqr in Hsq.
    cmp; cbn [fst snd]; rewrite !Hq; apply Rplus_le_compat_r; nra.
Qed.

(** The unit segment from the origin along the x axis and the point
    [(2, 3)]. *)
Lemma closest_minimizes_witness :
  Line.closest (Line.mk (0, 0) (1, 0) (Some 1) (1, 0) 1) (2, 3)
  = Line.point (Line.mk (0, 0) (1, 0) (Some 1) (1, 0) 1)
      (clamp 1 (fst (Line.parameters
                       (Line.mk (0, 0) (1, 0) (Some 1) (1, 0) 1) (2, 3))))
  /\ on_segment (Line.mk (0, 0) (1, 0) (Some 1) (1, 0) 1) 1
       (Line.closest (Line.mk (0, 0) (1, 0) (Some 1) (1, 0) 1) (2, 3))
  /\ (forall q : pt,
        on_segment (Line.mk (0, 0) (1, 0) (Some 1) (1, 0) 1) 1 q ->
        dist (Line.closest (Line.mk (0, 0) (1, 0) (Some 1) (1, 0) 1) (2, 3))
             (2, 3)
        <= dist q (2, 3)).
Proof.
  apply (closest_minimizes (Line.mk (0, 0) (1, 0) (Some 1) (1, 0) 1) 1 (2, 3)).
  - reflexivity.
  - lra.
  - unfold unit_vector; simpl; lra.
Defined.

Lemma hypot_0_l (d : R) : hypot 0 d = Rabs d.
Proof.
  unfold hypot. replace (0 * 0 + d * d) with (Rsqr d) by (unfold Rsqr; ring).
  apply sqrt_Rsqr_abs.
Qed.

Lemma hypot_ge_r (a d : R) : Rabs d <= hypot a d.
Proof.
  rewrite <- hypot_0_l. apply hypot_le.
  pose proof (Rle_0_sqr a) as H. unfold Rsqr in H. lra.
Qed.

(** The two parameters of a point give its distance to every point of
    the line. *)
Lemma dist_point_parameters (L : Line.t) (q : pt) (t : R) :
  unit_vector (Line.u L) ->
  dist (Line.point L t) q
  = hypot (fst (Line.parameters L q) - t) (snd (Line.parameters L q)).
Proof.
  unfold unit_vector, Line.parameters, Line.point, dist, hypot.
  destruct (Line.pos L) as [px py], (Line.u L) as [ux uy], q as [qx qy].
  cbn [fst snd]. intros Hu. f_equal.
  transitivity ((qx - px) * (qx - px) + (qy - py) * (qy - py)
                - 2 * t * (ux * (qx - px) + uy * (qy - py))
                + (ux * ux + uy * uy) * (t * t)); [ring|].
  transitivity ((ux * ux + uy * uy) * ((qx - px) * (qx - px)
                                       + (qy - py) * (qy - py))
                - 2 * t * (ux * (qx - px) + uy * (qy - py))
                + t * t); [|ring].
  rewrite Hu. ring.
Qed.

(** The parameters of the point at [s] along the line and [d] across. *)
Lemma parameters_along_across (L : Line.t) (s d : R) :
  unit_vector (Line.u L) ->
  Line.parameters L
    (fst (Line.point L s) - d * snd (Line.u L),
     snd (Line.point L s) + d * fst (Line.u L)) = (s, d).
Proof.
  unfold unit_vector, Line.parameters, Line.point.
  destruct (Line.pos L) as [px py], (Line.u L) as [ux uy].
  cbn [fst snd]. intros Hu. apply pair_eq.
  - transitivity ((ux * ux + uy * uy) * s); [ring|]. rewrite Hu. ring.
  - transitivity ((ux * ux + uy * uy) * d); [ring|]. rewrite Hu. ring.
Qed.

(** C9.  [contains] is true exactly when the absolute value of the
    second parameter [d] of the point is at most [1 + weight / 2].  For a
    line with a unit direction, which is what the constructor builds,
    [|d|] is the perpendicular distance of the point from the line: the
    distance to the foot [point(s)], and the least distance to any point
    of the unbounded line.  So a point is contained exactly when some
    point of the unbounded line is within [1 + weight / 2] of it.  The
    first parameter [s] plays no part: the point at any [s] along the
    line and [d] across it, beyond the ends of the segment or not, is
    contained exactly when [|d| <= 1 + weight / 2], and sliding a point
    along the direction does not change the answer. *)
Theorem contains_perpendicular_only (L : Line.t) (p : pt) :
  (Line.contains L p = true <->
   Rabs (snd (Line.parameters L p)) <= 1 + Line.weight L / 2)
  /\ (forall t : R,
        Line.contains L
          (fst p + t * fst (Line.u L), snd p + t * snd (Line.u L))
        = Line.contains L p)
  /\ (forall s : R,
        Line.contains L (Line.point L s) = Rleb 0 (1 + Line.weight L / 2))
  /\ (unit_vector (Line.u L) ->
      Rabs (snd (Line.parameters L p))
      = dist (Line.point L (fst (Line.parameters L p))) p
      /\ (forall t : R,
            Rabs (snd (Line.parameters L p)) <= dist (Line.point L t) p)
      /\ (Line.contains L p = true <->
          exists t : R, dist (Line.point L t) p <= 1 + Line.weight L / 2)
      /\ (forall s d : R,
            Line.contains L
              (fst (Line.point L s) - d * snd (Line.u L),
               snd (Line.point L s) + d * fst (Line.u L)) = true
            <-> Rabs d <= 1 + Line.weight L / 2)).
Proof.
  split; [unfold Line.contains; apply Rleb_true|]. split; [|split].
  - intros t. unfold Line.contains. f_equal. f_equal.
    unfold Line.parameters. destruct (Line.u L) as [ux uy].
    cbn [fst snd]. ring.
  - intros s. unfold Line.contains, Line.parameters, Line.point.
    destruct (Line.pos L) as [px py], (Line.u L) as [ux uy].
    cbn [fst snd].
    replace (ux * (py + s * uy - py) - uy * (px + s * ux - px)) with 0 by ring.
    rewrite Rabs_R0. reflexivity.
  - intros Hu.
    assert (Hfoot : Rabs (snd (Line.parameters L p))
                    = dist (Line.point L (fst (Line.parameters L p))) p).
    { rewrite (dist_point_parameters L p _ Hu).
      replace (fst (Line.parameters L p) - fst (Line.parameters L p))
        with 0 by ring.
      symmetry. apply hypot_0_l. }
    assert (Hmin : forall t : R,
              Rabs (snd (Line.parameters L p)) <= dist (Line.point L t) p).
    { intros t. rewrite (dist_point_parameters L p t Hu). apply hypot_ge_r. }
    split; [exact Hfoot|]. split; [exact Hmin|]. split.
    + unfold Line.contains. rewrite Rleb_true. split.
      * intros H. exists (fst (Line.parameters L p)). rewrite <- Hfoot.
        exact H.
      * intros [t Ht]. apply Rle_trans with (dist (Line.point L t) p);
          [apply Hmin | exact Ht].
    + intros s d. unfold Line.contains.
      rewrite (parameters_along_across L s d Hu). cbn [snd].
      apply Rleb_true.
Qed.

(** On the unit segment from the origin along the x axis, with the
    weight 1, the point [(100, 1)] is contained although it lies far
    beyond the end [(1, 0)], and the point [(0, 2)] above the start is
    not. *)
Example contains_beyond_the_end :
  Line.contains (Line.mk (0, 0) (1, 0) (Some 1) (1, 0) 1) (100, 1) = true
  /\ Line.contains (Line.mk (0, 0) (1, 0) (Some 1) (1, 0) 1) (0, 2) = false.
Proof.
  unfold Line.contains, Line.parameters. cbn [Line.pos Line.u Line.weight
    fst snd]. split.
  - apply Rleb_true. replace (1 * (1 - 0) - 0 * (100 - 0)) with 1 by ring.
    rewrite Rabs_R1. lra.
  - apply Rleb_false. replace (1 * (2 - 0) - 0 * (0 - 0)) with 2 by ring.
    rewrite Rabs_right by lra. lra.
Qed.

(** C4 (as amended).  Whatever path the constructor takes, it stores a
    unit direction and a positive, finite [length]: the norm of the
    direction it was given, which is the distance from [start] to [point]
    on the start+end path, [hypot(1, m)] for a slope [m] and the norm of
    the pair otherwise.  It never stores [None]. *)
Theorem init_length_is_norm (w : R) (start : pt) (point : option pt)
    (vector : option Line.vector_arg) (L : Line.t) :
  Line.__init__ w start point vector = Ret L ->
  unit_vector (Line.u L)
  /\ Line.length L <> None
  /\ (exists d : pt,
        direction start point vector = Some d /\
        0 < hypot (fst d) (snd d) /\
        Line.length L = Some (hypot (fst d) (snd d)))
  /\ (forall p : pt, point = Some p -> Line.length L = Some (dist start p)).
Proof.
  intros H.
  destruct (Line_init_inv w start point vector L H)
    as [d [Hd [Hpos [Hl [Hu [_ [_ Hunit]]]]]]].
  split; [exact Hunit|]. split; [rewrite Hl; discriminate|]. split.
  - exists d. auto.
  - intros p ->. simpl in Hd. injection Hd as <-. exact Hl.
Qed.

Lemma hypot_1_0 : hypot 1 0 = 1.
Proof.
  unfold hypot. replace (1 * 1 + 0 * 0) with 1 by ring. apply sqrt_1.
Qed.

Lemma Reqb_1_0 : Reqb 1 0 = false.
Proof. apply Reqb_false. lra. Qed.

(** The line through the origin with direction [(1, 0)], built through
    the vector path. *)
Lemma new_vector_1_0 :
  Line.new (0, 0) None (Some (Line.Pair (1, 0)))
  = Ret (Line.mk (0, 0) (1, 0) (Some 1) (1, 0) 1).
Proof.
  unfold Line.new, Line.__init__. simpl.
  rewrite hypot_1_0, Reqb_1_0, Rabs_R1, Rabs_R0.
  do 2 f_equal. apply pair_eq; lra.
Qed.

Lemma init_length_is_norm_witness :
  unit_vector (Line.u (Line.mk (0, 0) (1, 0) (Some 1) (1, 0) 1))
  /\ Line.length (Line.mk (0, 0) (1, 0) (Some 1) (1, 0) 1) <> None.
Proof.
  pose proof (init_length_is_norm 1 (0, 0) None (Some (Line.Pair (1, 0)))
                (Line.mk (0, 0) (1, 0) (Some 1) (1, 0) 1) new_vector_1_0)
    as [Hu [Hl _]].
  split; assumption.
Defined.

(** C4, as stated, fails: [Line((0,0), vector=(1,0))] takes the
    direction-vector path and gets the length [1], not [None]. *)
Lemma init_vector_length_not_None :
  exists L : Line.t,
    Line.new (0, 0) None (Some (Line.Pair (1, 0))) = Ret L
    /\ Line.length L = Some 1
    /\ Line.length L <> None.
Proof.
  exists (Line.mk (0, 0) (1, 0) (Some 1) (1, 0) 1).
  split; [exact new_vector_1_0|]. split; [reflexivity | discriminate].
Qed.

(** The horizontal unit segment from [(0, y)] to [(1, y)]. *)
Lemma new_horizontal (y : R) :
  Line.new (0, y) (Some (1, y)) None
  = Ret (Line.mk (0, y) (1, 0) (Some 1) (1, 0) 1).
Proof.
  unfold Line.new, Line.__init__. simpl.
  replace (1 - 0) with 1 by ring. replace (y - y) with 0 by ring.
  rewrite hypot_1_0, Reqb_1_0, Rabs_R1, Rabs_R0.
  do 2 f_equal. apply pair_eq; lra.
Qed.

Lemma resolution_pos : 0 < Line.resolution.
Proof.
  unfold Line.resolution. simpl pow. lra.
Qed.

(** The parallel branch on two segments: the signed distance [d] of the
    anchor of [other] is compared with [resolution] and, when it is not
    above it, the result is the middle of the overlap of [[0, l1]] with
    the projection of [other], if they overlap. *)
Lemma intersect_parallel_segments (self other : Line.t) (l1 l2 : R) :
  det self other = 0 ->
  Line.length self = Some l1 -> Line.length other = Some l2 ->
  Line.intersect self other
  = (let s0 := fst (Line.parameters self (Line.point other 0)) in
     let d := snd (Line.parameters self (Line.point other 0)) in
     let s1 := fst (Line.parameters self (Line.point other l2)) in
     let lo := Rmax 0 (Rmin s0 s1) in
     let hi := Rmin l1 (Rmax s0 s1) in
     if Rleb d Line.resolution then
       if Rleb lo hi then Some (Line.HPoint (Line.point self ((lo + hi) / 2)))
       else None
     else None).
Proof.
  unfold det, Line.intersect. intros Hdet H1 H2. rewrite H1, H2.
  destruct (Line.u self) as [u1x u1y] eqn:Eu1.
  destruct (Line.u other) as [u2x u2y] eqn:Eu2.
  cbn [fst snd] in Hdet.
  apply Reqb_true in Hdet. rewrite Hdet. cbn [negb].
  destruct (Line.parameters self (Line.point other 0)) as [s0 d].
  reflexivity.
Qed.

(** C1, where the code departs from it.  The segments from [(0,0)] to
    [(1,0)] and from [(0,-5)] to [(1,-5)] are parallel ([det] is zero) and
    five units apart, far more than [resolution]; [intersect] tests
    [d <= resolution] on the signed distance [d = -5] and returns the
    point [(1/2, 0)] where the specification has no result. *)
Theorem intersect_parallel_apart_returns_point :
  let self := Line.mk (0, 0) (1, 0) (Some 1) (1, 0) 1 in
  let other := Line.mk (0, -5) (1, 0) (Some 1) (1, 0) 1 in
  Line.new (0, 0) (Some (1, 0)) None = Ret self
  /\ Line.new (0, -5) (Some (1, -5)) None = Ret other
  /\ det self other = 0
  /\ snd (Line.parameters self (Line.point other 0)) = -5
  /\ Line.resolution < Rabs (snd (Line.parameters self (Line.point other 0)))
  /\ Line.intersect self other = Some (Line.HPoint (1 / 2, 0)).
Proof.
  cbv zeta.
  split; [apply new_horizontal|]. split; [apply new_horizontal|].
  split; [unfold det; simpl; ring|].
  assert (Hd : snd (Line.parameters (Line.mk (0, 0) (1, 0) (Some 1) (1, 0) 1)
                      (Line.point (Line.mk (0, -5) (1, 0) (Some 1) (1, 0) 1) 0))
               = -5).
  { simpl. ring. }
  split; [exact Hd|]. split.
  - rewrite Hd. rewrite Rabs_left by lra.
    unfold Line.resolution. simpl pow. lra.
  - unfold Line.intersect. cbn [Line.u Line.pos Line.length fst snd].
    assert (E0 : Reqb (1 * 0 - 1 * 0) 0 = true) by (apply Reqb_true; ring).
    rewrite E0. cbn [negb].
    unfold Line.parameters, Line.point. cbn [Line.u Line.pos fst snd].
    assert (E1 : Rleb (1 * (-5 + 0 * 0 - 0) - 0 * (0 + 0 * 1 - 0))
                   Line.resolution = true).
    { apply Rleb_true. pose proof resolution_pos. lra. }
    rewrite E1.
    replace (1 * (0 + 0 * 1 - 0) + 0 * (-5 + 0 * 0 - 0)) with 0 by ring.
    replace (1 * (0 + 1 * 1 - 0) + 0 * (-5 + 1 * 0 - 0)) with 1 by ring.
    rewrite (Rmin_left 0 1) by lra. rewrite (Rmax_right 0 1) by lra.
    rewrite (Rmax_left 0 0) by lra. rewrite (Rmin_left 1 1) by lra.
    assert (E2 : Rleb 0 1 = true) by (apply Rleb_true; lra).
    rewrite E2. do 2 f_equal. apply pair_eq; lra.
Qed.

(** ** Polygon *)

(** C5.  For a numeric tail [t], [arrow] returns seven vertices and the
    angle [0].  The first vertex is the tip, on the axis; reflecting the
    list in the axis gives the tip followed by the other six in reverse
    order, that is, vertices 2, 3, 4 mirror vertices 7, 6, 5.  The
    half-width of the shaft is [width * (t / 2)], the head is [head * t]
    long and its barbs are [head * t * flatness / 2] away from the axis. *)
Theorem arrow_numeric_tail (delta : pt -> pt -> pt) (atan2 : R -> R -> R)
    (pos : pt) (t width head flatness : R) :
  let r := Polygon.arrow delta atan2 pos (Polygon.Length t)
             width head flatness in
  List.length (fst r) = 7%nat
  /\ snd r = 0
  /\ nth 0 (fst r) (0, 0) = (0, 0)
  /\ map mirror (fst r) = nth 0 (fst r) (0, 0) :: rev (tl (fst r))
  /\ nth 1 (fst r) (0, 0) = (- (head * t), head * t * flatness / 2)
  /\ nth 2 (fst r) (0, 0) = (- (head * t), width * (t / 2))
  /\ nth 3 (fst r) (0, 0) = (- t, width * (t / 2))
  /\ (forall i : nat, (1 <= i <= 3)%nat ->
        snd (nth (7 - i) (fst r) (0, 0)) = - snd (nth i (fst r) (0, 0))
        /\ fst (nth (7 - i) (fst r) (0, 0)) = fst (nth i (fst r) (0, 0))).
Proof.
  cbv zeta. unfold Polygon.arrow. cbn [fst snd List.length nth tl].
  repeat split; try reflexivity.
  - unfold mirror. cbn [map rev app fst snd].
    repeat (f_equal; try (apply pair_eq; lra)).
  - destruct i as [|[|[|[|i]]]]; cbn [nth Nat.sub snd]; try lia; lra.
  - destruct i as [|[|[|[|i]]]]; cbn [nth Nat.sub fst]; try lia; lra.
Qed.

(** The instance of the spec: tail 10, width 0.1, head 0.2, flatness 2. *)
Example arrow_10 (delta : pt -> pt -> pt) (atan2 : R -> R -> R) (pos : pt) :
  Polygon.arrow delta atan2 pos (Polygon.Length 10) (1 / 10) (2 / 10) 2
  = ([(0, 0); (- 2, 2); (- 2, 1 / 2); (- 10, 1 / 2);
      (- 10, - (1 / 2)); (- 2, - (1 / 2)); (- 2, - 2)], 0).
Proof.
  unfold Polygon.arrow. f_equal.
  repeat (f_equal; try (apply pair_eq; lra)).
Qed.

Lemma transform2d_round_trip (c p : pt) (a : R) :
  Geom.transform2d (Geom.transform2d p (- fst c, - snd c) a c)
    (- fst c, - snd c) (- a) c = p.
Proof.
  unfold Geom.transform2d. destruct c as [cx cy], p as [px py].
  cbn [fst snd].
  rewrite <- Ropp_mult_distr_l, cos_neg, sin_neg.
  pose proof (sin2_cos2 (a * Geom.DEG)) as H. unfold Rsqr in H.
  set (co := cos (a * Geom.DEG)) in *. set (si := sin (a * Geom.DEG)) in *.
  apply pair_eq.
  - transitivity ((si * si + co * co) * (px - cx) + cx); [ring|].
    rewrite H. ring.
  - transitivity ((si * si + co * co) * (py - cy) + cy); [ring|].
    rewrite H. ring.
Qed.

Lemma rot_back_x (c s x y : R) :
  s * s + c * c = 1 -> c * (c * x - s * y) - - s * (s * x + c * y) = x.
Proof.
  intros H. transitivity ((s * s + c * c) * x); [ring|]. rewrite H. ring.
Qed.

Lemma rot_back_y (c s x y : R) :
  s * s + c * c = 1 -> - s * (c * x - s * y) + c * (s * x + c * y) = y.
Proof.
  intros H. transitivity ((s * s + c * c) * y); [ring|]. rewrite H. ring.
Qed.

Lemma sin2_cos2_mul (a : R) : sin a * sin a + cos a * cos a = 1.
Proof. pose proof (sin2_cos2 a) as H. unfold Rsqr in H. exact H. Qed.

Lemma Polygon_init_at (a w : R) (pts : list pt) (p : pt) :
  pts <> [] ->
  exists rect : pt * pt,
    Polygon.__init__ a w pts (Polygon.At p) = Ret (Polygon.mk p rect pts a w).
Proof.
  intros Hne. destruct pts as [|q pts]; [contradiction|].
  unfold Polygon.__init__. cbn [map Polygon.min_of Polygon.max_of bind].
  eexists. reflexivity.
Qed.

Lemma Polygon_rotate_returns (P : Polygon.t) (a : R) :
  Polygon.vertices P <> [] ->
  exists rect : pt * pt,
    Polygon.rotate P a
    = Ret (Polygon.mk (Polygon._pos P) rect
             (Geom.transform2dGen (Polygon.vertices P)
                (- fst (Polygon._pos P), - snd (Polygon._pos P)) a
                (Polygon._pos P))
             (Polygon._angle P + a) (Polygon.weight P)).
Proof.
  intros Hne. unfold Polygon.rotate.
  destruct (Polygon_init_at (Polygon._angle P) (Polygon.weight P)
              (Geom.transform2dGen (Polygon.vertices P)
                 (- fst (Polygon._pos P), - snd (Polygon._pos P)) a
                 (Polygon._pos P))
              (Polygon._pos P)) as [rect Hr].
  { unfold Geom.transform2dGen. destruct (Polygon.vertices P);
      [contradiction | discriminate]. }
  exists rect. rewrite Hr. reflexivity.
Qed.

(** C6.  Rotating a polygon by [a] and then by [-a] succeeds and gives
    back its vertices, its anchor and its angle; each rotation turns every
    vertex about the anchor.  Rotating a PVector by [a] and then by [-a]
    about the same pivot gives back the vector and its tail. *)
Theorem rotate_round_trip (P : Polygon.t) (a : R) :
  Polygon.vertices P <> [] ->
  (exists P1 P2 : Polygon.t,
     Polygon.rotate P a = Ret P1
     /\ Polygon.vertices P1
        = map (fun p => Geom.transform2d p
                 (- fst (Polygon._pos P), - snd (Polygon._pos P)) a
                 (Polygon._pos P)) (Polygon.vertices P)
     /\ Polygon.rotate P1 (- a) = Ret P2
     /\ Polygon.vertices P2 = Polygon.vertices P
     /\ Polygon._pos P2 = Polygon._pos P
     /\ Polygon._angle P2 = Polygon._angle P)
  /\ (forall (v : PVector.t) (pivot : pt),
        PVector.rotate (PVector.rotate v a (Some pivot)) (- a) (Some pivot)
        = v).
Proof.
  intros Hne. split.
  - destruct (Polygon_rotate_returns P a Hne) as [r1 H1].
    match type of H1 with _ = Ret ?Q => set (P1 := Q) in * end.
    destruct (Polygon_rotate_returns P1 (- a)) as [r2 H2].
    { subst P1. cbn [Polygon.vertices]. unfold Geom.transform2dGen.
      destruct (Polygon.vertices P); [contradiction | discriminate]. }
    exists P1. eexists.
    split; [exact H1|]. split; [reflexivity|].
    split; [exact H2|]. subst P1. cbn [Polygon.vertices Polygon._pos
      Polygon._angle Polygon.weight].
    split; [|split; [reflexivity | ring]].
    unfold Geom.transform2dGen. rewrite map_map.
    rewrite <- (map_id (Polygon.vertices P)) at 2.
    apply map_ext. intros p. apply transform2d_round_trip.
  - intros v pivot. destruct v as [vx vy tl].
    unfold PVector.rotate, PVector.set_tail, PVector.rotate_ip.
    cbn [PVector.x PVector.y PVector.tail].
    rewrite transform2d_round_trip.
    rewrite <- Ropp_mult_distr_l, cos_neg, sin_neg.
    f_equal.
    + apply rot_back_x, sin2_cos2_mul.
    + apply rot_back_y, sin2_cos2_mul.
Qed.

Lemma unit_square_new :
  Polygon.new [(0, 0); (1, 0); (1, 1); (0, 1)] Polygon.Default
  = Ret unit_square.
Proof.
  unfold Polygon.new, Polygon.__init__, unit_square.
  cbn [map fst snd Polygon.min_of Polygon.max_of fold_left bind].
  assert (A1 : Rmin 0 1 = 0) by (apply Rmin_left; lra).
  assert (A2 : Rmin 0 0 = 0) by (apply Rmin_left; lra).
  assert (B1 : Rmax 0 1 = 1) by (apply Rmax_right; lra).
  assert (B2 : Rmax 1 1 = 1) by (apply Rmax_left; lra).
  assert (B3 : Rmax 1 0 = 1) by (apply Rmax_left; lra).
  assert (B4 : Rmax 0 0 = 0) by (apply Rmax_left; lra).
  rewrite ?A1, ?A2, ?B1, ?B2, ?B3, ?B4, ?A1, ?B1, ?B2, ?B3.
  replace (1 - 0) with 1 by ring. rewrite Rabs_R1.
  do 2 f_equal. apply pair_eq; lra.
Qed.

Lemma rotate_round_trip_witness :
  exists P1 P2 : Polygon.t,
    Polygon.rotate unit_square 90 = Ret P1
    /\ Polygon.rotate P1 (- 90) = Ret P2
    /\ Polygon.vertices P2 = Polygon.vertices unit_square.
Proof.
  destruct (rotate_round_trip unit_square 90) as [[P1 [P2 H]] _].
  - unfold unit_square; simpl; discriminate.
  - exists P1, P2. tauto.
Defined.

(** ** PVector *)

(** C10.  For a negative [mag], [PVector(mag, theta)] is the vector
    [PVector(-mag, theta + 180)]: the magnitude is negated and 180
    degrees are added to the angle before the conversion from polar form.
    The components are then [mag * cos theta] and [mag * sin theta]
    ([theta] in degrees), as the polar form with the negative magnitude
    would give. *)
Theorem negative_magnitude (mag theta : R) (xy : pt) :
  mag < 0 ->
  PVector.__init__ (PVector.Mag mag) theta xy
  = PVector.__init__ (PVector.Mag (- mag)) (theta + 180) xy
  /\ PVector.__init__ (PVector.Mag mag) theta xy
     = PVector.from_polar (PVector.mk (fst xy) (snd xy) (0, 0))
         (- mag) (theta + 180)
  /\ PVector.x (PVector.__init__ (PVector.Mag mag) theta xy)
     = mag * cos (theta * (PI / 180))
  /\ PVector.y (PVector.__init__ (PVector.Mag mag) theta xy)
     = mag * sin (theta * (PI / 180)).
Proof.
  intros Hneg. unfold PVector.__init__.
  assert (E1 : Rltb mag 0 = true) by (apply Rltb_true; exact Hneg).
  assert (E2 : Rltb (- mag) 0 = false) by (apply Rltb_false; lra).
  rewrite E1, E2. split; [reflexivity|]. split; [reflexivity|].
  unfold PVector.from_polar. cbn [PVector.x PVector.y].
  replace ((theta + 180) * (PI / 180)) with (theta * (PI / 180) + PI)
    by (field; lra).
  rewrite neg_cos, neg_sin. split; ring.
Qed.

Lemma negative_magnitude_witness :
  PVector.__init__ (PVector.Mag (- 1)) 0 (0, 0)
  = PVector.__init__ (PVector.Mag (- - 1)) (0 + 180) (0, 0).
Proof.
  apply (negative_magnitude (- 1) 0 (0, 0)). lra.
Defined.

(** *** The search finds a text of the pattern *)

Lemma star_sound (A : Type) (p : ascii -> bool) (s : list ascii)
    (k : list ascii -> option A) (a : A) :
  Re.star p s k = Some a ->
  exists m rest : list ascii,
    s = m ++ rest /\ forallb p m = true /\ k rest = Some a.
Proof.
  induction s as [|c s IH]; simpl; intros H.
  - exists [], []. auto.
  - destruct (p c) eqn:Hc.
    + destruct (Re.star p s k) as [a'|] eqn:Hs.
      * injection H as ->. destruct (IH eq_refl) as [m [rest [-> [Hm Hk]]]].
        exists (c :: m), rest. simpl. rewrite Hc, Hm. auto.
      * exists [], (c :: s). auto.
    + exists [], (c :: s). auto.
Qed.

Lemma run_sound (A : Type) (r : Re.regex) :
  forall (s : list ascii) (k : list ascii -> option A) (a : A),
    Re.run r s k = Some a ->
    exists m rest : list ascii, s = m ++ rest /\ lang r m /\ k rest = Some a.
Proof.
  induction r as [c|p|r1 IH1 r2 IH2|r1 IH1|p|p]; intros s k a H; simpl in H.
  - destruct s as [|c' s]; [discriminate|].
    destruct (Ascii.eqb c c') eqn:E; [|discriminate].
    apply Ascii.eqb_eq in E. subst c'. exists [c], s. simpl. auto.
  - destruct s as [|c' s]; [discriminate|].
    destruct (p c') eqn:E; [|discriminate].
    exists [c'], s. simpl. eauto.
  - destruct (IH1 _ _ _ H) as [m1 [rest1 [-> [H1 H']]]].
    destruct (IH2 _ _ _ H') as [m2 [rest [-> [H2 Hk]]]].
    exists (m1 ++ m2), rest. rewrite <- app_assoc. simpl. eauto 7.
  - destruct (Re.run r1 s k) as [a'|] eqn:E.
    + injection H as ->. destruct (IH1 _ _ _ E) as [m [rest [-> [H1 Hk]]]].
      exists m, rest. simpl. auto.
    + exists [], s. simpl. auto.
  - apply star_sound in H. exact H.
  - destruct s as [|c' s]; [discriminate|].
    destruct (p c') eqn:E; [|discriminate].
    apply star_sound in H. destruct H as [m [rest [-> [Hm Hk]]]].
    exists (c' :: m), rest. simpl. rewrite E, Hm.
    repeat split; auto. discriminate.
Qed.

Lemma match_group_sound (r : Re.regex) (s g : list ascii) :
  Re.match_group r s = Some g ->
  lang r g /\ exists rest : list ascii, s = g ++ rest.
Proof.
  unfold Re.match_group. intros H.
  apply run_sound in H. destruct H as [m [rest [-> [Hm Hk]]]].
  injection Hk as <-.
  rewrite length_app, Nat.add_sub, firstn_app, Nat.sub_diag, firstn_all.
  simpl. rewrite app_nil_r. eauto.
Qed.

Lemma lang_alphabet (r : Re.regex) :
  forall m : list ascii, lang r m -> forallb (alphabet r) m = true.
Proof.
  induction r as [c|p|r1 IH1 r2 IH2|r1 IH1|p|p]; intros m H; simpl in *.
  - subst m. simpl. rewrite Ascii.eqb_refl. reflexivity.
  - destruct H as [c [-> Hc]]. simpl. rewrite Hc. reflexivity.
  - destruct H as [m1 [m2 [-> [H1 H2]]]].
    apply IH1 in H1. apply IH2 in H2.
    rewrite forallb_forall in H1, H2. apply forallb_forall.
    intros c Hc. apply in_app_or in Hc. apply orb_true_iff.
    destruct Hc; [left|right]; auto.
  - destruct H as [->|H]; [reflexivity | auto].
  - exact H.
  - apply H.
Qed.

(** A pattern that starts with a literal or with [_num] matches no empty
    text. *)
Lemma lang_num_nonempty (m : list ascii) : lang PVector._num m -> m <> [].
Proof.
  simpl. intros [m1 [m2 [-> [_ [m3 [m4 [-> [[H3 _] _]]]]]]]].
  destruct m1; [|discriminate]. destruct m3; [contradiction | discriminate].
Qed.

Lemma lang_re_nonempty (f : PVector.form) (m : list ascii) :
  lang (PVector._re f) m -> m <> [].
Proof.
  destruct f.
  - simpl. intros [m1 [m2 [-> [-> _]]]]. discriminate.
  - intros [m1 [m2 [-> [H1 _]]]]. apply lang_num_nonempty in H1.
    destruct m1; [contradiction | discriminate].
Qed.

Lemma num_no_separator (n : list ascii) (sep : ascii) :
  alphabet PVector._num sep = false ->
  lang PVector._num n ->
  forallb (fun c => negb (Ascii.eqb c sep)) n = true.
Proof.
  intros Hsep H. apply lang_alphabet in H.
  rewrite forallb_forall in H. apply forallb_forall. intros c Hc.
  destruct (Ascii.eqb_spec c sep) as [->|]; [|reflexivity].
  rewrite (H _ Hc) in Hsep. discriminate.
Qed.

Lemma split_none (sep : ascii) (s : list ascii) :
  forallb (fun c => negb (Ascii.eqb c sep)) s = true ->
  PVector.split sep s = [s].
Proof.
  induction s as [|c s IH]; simpl; [reflexivity|].
  intros H. apply andb_true_iff in H. destruct H as [Hc Hs].
  destruct (Ascii.eqb c sep); [discriminate|].
  rewrite (IH Hs). reflexivity.
Qed.

Lemma split_one (sep : ascii) (a b : list ascii) :
  forallb (fun c => negb (Ascii.eqb c sep)) a = true ->
  forallb (fun c => negb (Ascii.eqb c sep)) b = true ->
  PVector.split sep (a ++ sep :: b) = [a; b].
Proof.
  intros Ha Hb. induction a as [|c a IH]; simpl.
  - rewrite Ascii.eqb_refl, (split_none sep b Hb). reflexivity.
  - simpl in Ha. apply andb_true_iff in Ha. destruct Ha as [Hc Ha].
    destruct (Ascii.eqb c sep); [discriminate|].
    rewrite (IH Ha). reflexivity.
Qed.

(** The two numerals of a matched term. *)
Lemma polar_numerals (m : list ascii) :
  lang (PVector._re PVector.Polar) m ->
  exists a b : list ascii,
    lang PVector._num a /\ lang PVector._num b /\
    PVector.split "@" m = [a; b].
Proof.
  intros [a [m2 [-> [Ha [m3 [b [-> [-> Hb]]]]]]]].
  exists a, b. split; [exact Ha|]. split; [exact Hb|].
  apply split_one; apply num_no_separator; trivial.
Qed.

Lemma cartesian_numerals (m : list ascii) :
  lang (PVector._re PVector.Cartesian) m ->
  exists a b : list ascii,
    lang PVector._num a /\ lang PVector._num b /\
    PVector.split "," (removelast (tl m)) = [a; b].
Proof.
  intros [m1 [m2 [-> [-> [a [m3 [-> [Ha [m4 [m5 [-> [-> [b [m6 [-> [Hb ->]]]]]]]]]]]]]]]].
  exists a, b. split; [exact Ha|]. split; [exact Hb|].
  cbn [app tl].
  replace (a ++ ","%char :: b ++ [")"%char])
    with ((a ++ ","%char :: b) ++ [")"%char])
    by (rewrite <- app_assoc; reflexivity).
  rewrite removelast_last.
  apply split_one; apply num_no_separator; trivial.
Qed.

(** *** Conversion of the numerals *)

Lemma float_cases (s : list ascii) :
  (exists r : R, PVector.float s = Ret r)
  \/ PVector.float s
     = Raise (ValueError (CouldNotConvert (string_of_list_ascii s))).
Proof.
  unfold PVector.float.
  destruct (PVector.take_sign s) as [neg s1].
  destruct (PVector.span Re.digit s1) as [ip s2].
  destruct (match s2 with
            | [] => ([], s2)
            | c :: r =>
                if Ascii.eqb c "." then PVector.span Re.digit r else ([], s2)
            end) as [fp s3].
  destruct (ip ++ fp); [right; reflexivity|].
  destruct s3 as [|c r]; [left; eauto|].
  destruct (Re.one_of ["e"; "E"]%char c); [|right; reflexivity].
  destruct (PVector.take_sign r) as [eneg r1].
  destruct (PVector.span Re.digit r1) as [ed r2].
  destruct ed; [right; reflexivity|].
  destruct r2; [left; eauto | right; reflexivity].
Qed.

Lemma to_vector_cases (f : PVector.form) (m : list ascii) :
  lang (PVector._re f) m ->
  (exists v : PVector.t, PVector.to_vector f m = Ret v)
  \/ is_ValueError (PVector.to_vector f m).
Proof.
  intros H. unfold PVector.to_vector, is_ValueError. destruct f.
  - destruct (cartesian_numerals m H) as [a [b [_ [_ ->]]]].
    cbn [PVector.piece nth_error bind].
    destruct (float_cases a) as [[r ->] | ->]; cbn [bind]; [|eauto].
    destruct (float_cases b) as [[r' ->] | ->]; cbn [bind]; eauto.
  - destruct (polar_numerals m H) as [a [b [_ [_ ->]]]].
    cbn [PVector.piece nth_error bind].
    destruct (float_cases a) as [[r ->] | ->]; cbn [bind]; [|eauto].
    destruct (float_cases b) as [[r' ->] | ->]; cbn [bind]; eauto.
Qed.

Lemma term_vector_cases (t : term) :
  well_matched t ->
  (exists v : PVector.t, term_vector t = Ret v /\ bad_numeral t = false)
  \/ (is_ValueError (term_vector t) /\ bad_numeral t = true).
Proof.
  destruct t as [[neg f] m]. unfold well_matched, bad_numeral, term_vector.
  cbn [fst snd]. intros H.
  destruct (to_vector_cases f m H) as [[v ->] | [e ->]]; cbn [bind].
  - left. eauto.
  - right. split; [exists e|]; reflexivity.
Qed.

Lemma match_term_sound (expr : list ascii) (f : PVector.form)
    (m : list ascii) :
  match_term expr = Some (f, m) ->
  Re.match_group (PVector._re f) expr = Some m
  /\ lang (PVector._re f) m
  /\ (f = PVector.Polar ->
      Re.match_group (PVector._re PVector.Cartesian) expr = None)
  /\ exists c m' rest, m = c :: m' /\ expr = m ++ rest.
Proof.
  unfold match_term. intros H.
  assert (G : forall g, Re.match_group (PVector._re g) expr = Some m ->
                lang (PVector._re g) m
                /\ exists c m' rest, m = c :: m' /\ expr = m ++ rest).
  { intros g Hg. apply match_group_sound in Hg. destruct Hg as [Hl [rest ->]].
    split; [exact Hl|]. pose proof (lang_re_nonempty g m Hl) as Hne.
    destruct m as [|c m']; [contradiction|]. eauto. }
  destruct (Re.match_group (PVector._re PVector.Cartesian) expr) as [g|] eqn:EC.
  - injection H as <- <-. destruct (G _ EC) as [Hl Hx].
    repeat split; auto. discriminate.
  - destruct (Re.match_group (PVector._re PVector.Polar) expr) as [g|] eqn:EP;
      [|discriminate].
    injection H as <- <-. destruct (G _ EP) as [Hl Hx].
    repeat split; auto.
Qed.

Lemma match_term_none (expr : list ascii) :
  match_term expr = None ->
  Re.match_group (PVector._re PVector.Cartesian) expr = None
  /\ Re.match_group (PVector._re PVector.Polar) expr = None.
Proof.
  unfold match_term.
  destruct (Re.match_group (PVector._re PVector.Cartesian) expr);
    [discriminate|].
  destruct (Re.match_group (PVector._re PVector.Polar) expr);
    [discriminate | auto].
Qed.

Lemma lex_well_matched (fuel : nat) :
  forall expr : list ascii, Forall well_matched (fst (lex fuel expr)).
Proof.
  induction fuel as [|fuel IH]; intros expr; cbn [lex fst]; [constructor|].
  destruct expr as [|c rest]; [constructor|].
  set (e := if Re.one_of ["+"; "-"]%char c then rest else c :: rest).
  destruct (match_term e) as [[f m]|] eqn:E; [|constructor].
  specialize (IH (skipn (List.length m) e)).
  destruct (lex fuel (skipn (List.length m) e)) as [ts r].
  cbn [fst] in *. constructor; [|exact IH].
  apply match_term_sound in E. unfold well_matched. cbn [fst snd]. tauto.
Qed.

(** The loop of [parse] is the matching of the terms followed by their
    conversion, and a budget above the length of the text is never used
    up. *)
Lemma parse_loop_lex (fuel : nat) :
  forall (expr : list ascii) (vecs : list PVector.t),
    (List.length expr < fuel)%nat ->
    PVector.parse_loop fuel expr vecs
    = (vs <- convert_all (fst (lex fuel expr)) ;;
       Ret (snd (lex fuel expr), vecs ++ vs)).
Proof.
  induction fuel as [|fuel IH]; intros expr vecs Hlen; [lia|].
  destruct expr as [|c rest].
  { simpl. rewrite app_nil_r. reflexivity. }
  cbn [PVector.parse_loop lex].
  set (e := if Re.one_of ["+"; "-"]%char c then rest else c :: rest).
  assert (He : (List.length e <= List.length (c :: rest))%nat).
  { subst e. destruct (Re.one_of _ c); simpl; lia. }
  destruct (match_term e) as [[f m]|] eqn:E.
  - destruct (match_term_sound e f m E)
      as [Hm [Hl [Hc [c0 [m0 [rest' [Hm0 Hrest]]]]]]].
    assert (Hsk : (List.length (skipn (List.length m) e) < fuel)%nat).
    { rewrite Hrest, length_skipn, length_app in *. subst m.
      simpl in *. lia. }
    specialize (IH (skipn (List.length m) e)).
    destruct (lex fuel (skipn (List.length m) e)) as [ts r] eqn:EL.
    cbn [fst snd convert_all term_vector] in *.
    assert (Hlen' : List.length m = S (List.length m0))
      by (rewrite Hm0; reflexivity).
    unfold PVector._parse.
    destruct f;
      [rewrite Hm | rewrite (Hc eq_refl); cbn [bind]; rewrite Hm];
      (destruct (PVector.to_vector _ m) as [v| |];
       cbn [bind]; try reflexivity;
       rewrite Hlen'; cbn [bind]; rewrite <- Hlen';
       rewrite (IH _ Hsk);
       destruct (convert_all ts); cbn [bind]; try reflexivity;
       rewrite <- app_assoc; reflexivity).
  - destruct (match_term_none e E) as [HC HP].
    unfold PVector._parse. rewrite HC. cbn [bind]. rewrite HP. cbn [bind].
    cbn [fst snd convert_all bind]. rewrite app_nil_r. reflexivity.
Qed.

Lemma convert_all_cases (ts : list term) :
  Forall well_matched ts ->
  (exists vs : list PVector.t,
     convert_all ts = Ret vs
     /\ List.length vs = List.length ts
     /\ existsb bad_numeral ts = false)
  \/ (is_ValueError (convert_all ts) /\ existsb bad_numeral ts = true).
Proof.
  induction 1 as [|t ts Ht _ IH]; cbn [convert_all existsb].
  - left. exists []. auto.
  - destruct (term_vector_cases t Ht) as [[v [-> ->]] | [[e ->] ->]];
      cbn [bind orb].
    + destruct IH as [[vs [-> [Hlen Hb]]] | [[e ->] Hb]]; cbn [bind].
      * left. exists (v :: vs). simpl. auto.
      * right. split; [exists e; reflexivity | exact Hb].
    + right. split; [exists e|]; reflexivity.
Qed.

Lemma parse_unfold (s : string) :
  PVector.parse s
  = (vs <- convert_all (terms s) ;;
     match left_in_expr s with
     | _ :: _ => Raise (ValueError (CantParse s))
     | [] => Ret (laid_out vs)
     end).
Proof.
  unfold PVector.parse, terms, left_in_expr. fold (stripped s).
  rewrite parse_loop_lex by lia.
  destruct (convert_all _); reflexivity.
Qed.

Lemma laid_out_length (vs : list PVector.t) :
  List.length (laid_out vs) = List.length vs.
Proof.
  unfold laid_out, PVector.values, PVector.fresh, PVector.tipToTail.
  cbn [fst snd].
  destruct (seq 0 (List.length vs)) as [|a [|b l]] eqn:E; cbn [fst snd];
    rewrite length_map, <- E, length_seq; reflexivity.
Qed.

Lemma match_term_nil : match_term [] = None.
Proof. reflexivity. Qed.

(** The loop of [parse] goes through the signed terms; what it leaves in
    [expr] is the unmatched text without its leading sign, if it has
    one. *)
Lemma lex_split (fuel : nat) :
  forall expr : list ascii,
    (List.length expr < fuel)%nat ->
    lex fuel expr
    = (fst (split_terms fuel expr), signed_body (snd (split_terms fuel expr))).
Proof.
  induction fuel as [|fuel IH]; intros expr Hlen; [lia|].
  cbn [lex split_terms]. destruct expr as [|c rest].
  - cbn [signed_body]. rewrite match_term_nil. reflexivity.
  - cbn [signed_body leading_minus].
    set (e := if Re.one_of ["+"; "-"]%char c then rest else c :: rest).
    assert (He : (List.length e <= List.length (c :: rest))%nat).
    { subst e. destruct (Re.one_of _ c); simpl; lia. }
    destruct (match_term e) as [[f m]|] eqn:E.
    + destruct (match_term_sound e f m E)
        as [_ [_ [_ [c0 [m0 [rest' [Hm0 Hrest]]]]]]].
      assert (Hsk : (List.length (skipn (List.length m) e) < fuel)%nat).
      { rewrite Hrest, length_skipn, length_app in *. subst m.
        simpl in *. lia. }
      rewrite (IH _ Hsk).
      destruct (split_terms fuel (skipn (List.length m) e)) as [ts r].
      reflexivity.
    + reflexivity.
Qed.

Lemma terms_signed (s : string) :
  terms s = signed_terms s /\ left_in_expr s = signed_body (unmatched s).
Proof.
  unfold terms, left_in_expr, signed_terms, unmatched.
  rewrite lex_split by lia. split; reflexivity.
Qed.

Lemma signed_body_empty (r : list ascii) :
  signed_body r = [] <-> r = [] \/ dangling_sign r.
Proof.
  unfold dangling_sign. destruct r as [|c r]; cbn [signed_body].
  - split; auto.
  - unfold Re.one_of. cbn [existsb].
    destruct (Ascii.eqb_spec c "+") as [->|Hp]; cbn [orb].
    + split; [intros ->; auto|]. intros [H|[H|H]]; try discriminate.
      injection H as ->. reflexivity.
    + destruct (Ascii.eqb_spec c "-") as [->|Hm]; cbn [orb].
      * split; [intros ->; auto|]. intros [H|[H|H]]; try discriminate.
        injection H as ->. reflexivity.
      * split; [discriminate|]. intros [H|[H|H]]; try discriminate.
        -- injection H as -> _. contradiction.
        -- injection H as -> _. contradiction.
Qed.

(** What [parse] does, in terms of the signed terms and the unmatched
    text. *)
Lemma parse_outcome (s : string) :
  PVector.parse s
  = (vs <- convert_all (signed_terms s) ;;
     match signed_body (unmatched s) with
     | _ :: _ => Raise (ValueError (CantParse s))
     | [] => Ret (laid_out vs)
     end).
Proof.
  rewrite parse_unfold. destruct (terms_signed s) as [-> ->]. reflexivity.
Qed.

(** C7 (as amended).  The string, white space removed, is matched from
    the front by signed terms, a sign being matched only together with
    the term that follows it.  [parse] always ends, with the list or with
    a [ValueError] and nothing else.  It raises the [ValueError] when a
    matched term holds a numeral that [float] rejects, and when the text
    left unmatched is not empty and not a single sign; it raises it in no
    other case.  So, leaving aside the strings that end in a sign with no
    term after it, it raises exactly when something is left unmatched or
    a numeral is rejected.  When it returns, every numeral was accepted
    and the list holds one vector for each term. *)
Theorem parse_error_iff (s : string) :
  PVector.parse s <> Fuel
  /\ (forall e : exn, PVector.parse s = Raise e ->
        exists m : message, e = ValueError m)
  /\ (existsb bad_numeral (signed_terms s) = true ->
      is_ValueError (PVector.parse s))
  /\ (unmatched s <> [] -> ~ dangling_sign (unmatched s) ->
      is_ValueError (PVector.parse s))
  /\ (is_ValueError (PVector.parse s) ->
      unmatched s <> [] \/ existsb bad_numeral (signed_terms s) = true)
  /\ (~ dangling_sign (unmatched s) ->
      (is_ValueError (PVector.parse s) <->
       unmatched s <> [] \/ existsb bad_numeral (signed_terms s) = true))
  /\ (forall vs : list PVector.t,
        PVector.parse s = Ret vs ->
        (unmatched s = [] \/ dangling_sign (unmatched s))
        /\ existsb bad_numeral (signed_terms s) = false
        /\ List.length vs = List.length (signed_terms s)
        /\ exists vs0 : list PVector.t,
             convert_all (signed_terms s) = Ret vs0 /\ vs = laid_out vs0).
Proof.
  rewrite parse_outcome.
  pose proof (lex_well_matched (S (List.length (stripped s))) (stripped s))
    as Hwm. fold (terms s) in Hwm.
  destruct (terms_signed s) as [Ht _]. rewrite Ht in Hwm. clear Ht.
  pose proof (signed_body_empty (unmatched s)) as Hsb.
  destruct (convert_all_cases (signed_terms s) Hwm)
    as [[vs0 [-> [Hlen Hb]]] | [[e ->] Hb]]; cbn [bind]; rewrite Hb.
  - destruct (signed_body (unmatched s)) as [|c r].
    + assert (Hu : unmatched s = [] \/ dangling_sign (unmatched s))
        by (apply Hsb; reflexivity).
      split; [discriminate|]. split; [discriminate|].
      split; [discriminate|]. split; [tauto|].
      split; [intros [m Hm]; discriminate|]. split.
      * intros Hd. split; [intros [m Hm]; discriminate|].
        intros [H|H]; [tauto | discriminate].
      * intros vs H. injection H as <-.
        rewrite laid_out_length. eauto 7.
    + assert (Hu : unmatched s <> []).
      { intros H. assert (c :: r = []) by (apply Hsb; auto). discriminate. }
      split; [discriminate|]. split; [intros e H; injection H as <-; eauto|].
      split; [discriminate|].
      split; [intros _ _; eexists; reflexivity|].
      split; [auto|]. split; [|discriminate].
      intros _. split; [auto|]. intros _. eexists. reflexivity.
  - split; [discriminate|]. split; [intros e' H; injection H as <-; eauto|].
    split; [intros _; exists e; reflexivity|].
    split; [intros _ _; exists e; reflexivity|].
    split; [auto|]. split; [|discriminate].
    intros _. split; [auto|]. intros _. exists e. reflexivity.
Qed.

(** C7, as stated, fails: in ["(1e,2)"] the Cartesian pattern matches the
    whole text, so nothing is left unmatched, and [float("1e")] raises a
    [ValueError]. *)
Lemma parse_1e_raises :
  PVector.parse "(1e,2)" = Raise (ValueError (CouldNotConvert "1e"))
  /\ unmatched "(1e,2)" = []
  /\ ~ (is_ValueError (PVector.parse "(1e,2)") <-> unmatched "(1e,2)" <> []).
Proof.
  assert (H1 : PVector.parse "(1e,2)"
               = Raise (ValueError (CouldNotConvert "1e")))
    by (cbv; reflexivity).
  assert (H2 : unmatched "(1e,2)" = []) by (vm_compute; reflexivity).
  split; [exact H1|]. split; [exact H2|].
  intros [H _]. rewrite H2 in H. apply H; [|reflexivity].
  rewrite H1. eexists. reflexivity.
Qed.

(** A sign with no term after it: the loop drops the sign, finds no
    term and stops with nothing left in [expr], so nothing is raised
    although the sign was matched by no term. *)
Example parse_trailing_sign :
  unmatched "+" = ["+"%char]
  /\ PVector.parse "+" = Ret []
  /\ unmatched "(1,0)+" = ["+"%char]
  /\ PVector.parse "(1,0)+" = Ret [PVector.mk 1 0 (0, 0)].
Proof.
  split; [vm_compute; reflexivity|]. split; [cbv; reflexivity|].
  split; [vm_compute; reflexivity|]. cbv. repeat f_equal; lra.
Qed.

(** *** Tip to tail *)

Lemma assign_tail_same (h : PVector.heap) (v : PVector.loc) (p : pt) :
  PVector.assign_tail h v p v = PVector.set_tail (h v) p.
Proof. unfold PVector.assign_tail. rewrite Nat.eqb_refl. reflexivity. Qed.

Lemma assign_tail_other (h : PVector.heap) (v l : PVector.loc) (p : pt) :
  l <> v -> PVector.assign_tail h v p l = h l.
Proof.
  intros H. unfold PVector.assign_tail.
  apply Nat.eqb_neq in H. rewrite H. reflexivity.
Qed.

Lemma assign_tail_xy (h : PVector.heap) (v l : PVector.loc) (p : pt) :
  PVector.x (PVector.assign_tail h v p l) = PVector.x (h l)
  /\ PVector.y (PVector.assign_tail h v p l) = PVector.y (h l).
Proof.
  unfold PVector.assign_tail. destruct (Nat.eqb_spec l v) as [->|];
    simpl; auto.
Qed.

(** The loop on distinct objects: the first keeps its value, objects
    outside the list keep theirs, no vector changes, and each tail in the
    list is the tip of the object before it. *)
Lemma tipToTail_loop_spec (rest : list PVector.loc) :
  forall (h : PVector.heap) (v0 : PVector.loc),
    NoDup (v0 :: rest) ->
    PVector.tipToTail_loop h v0 rest v0 = h v0
    /\ (forall l, ~ In l rest -> PVector.tipToTail_loop h v0 rest l = h l)
    /\ (forall l,
          PVector.x (PVector.tipToTail_loop h v0 rest l) = PVector.x (h l)
          /\ PVector.y (PVector.tipToTail_loop h v0 rest l) = PVector.y (h l))
    /\ (forall i a b,
          nth_error (v0 :: rest) i = Some a ->
          nth_error (v0 :: rest) (S i) = Some b ->
          PVector.tail (PVector.tipToTail_loop h v0 rest b)
          = PVector.tip (PVector.tipToTail_loop h v0 rest a)).
Proof.
  induction rest as [|v r IH]; intros h v0 Hnd; cbn [PVector.tipToTail_loop].
  - repeat split; try reflexivity.
    intros i a b _ Hb. destruct i; discriminate.
  - inversion Hnd as [|? ? Hnot Hnd']; subst.
    assert (Hv0v : v0 <> v) by (intros ->; apply Hnot; left; reflexivity).
    assert (Hv0r : ~ In v0 r) by (intros Hin; apply Hnot; right; exact Hin).
    set (h1 := PVector.assign_tail h v (PVector.tip (h v0))).
    destruct (IH h1 v Hnd') as [H1 [H2 [H3 H4]]].
    assert (G0 : PVector.tipToTail_loop h1 v r v0 = h v0).
    { rewrite (H2 v0 Hv0r). apply assign_tail_other. exact Hv0v. }
    split; [exact G0|]. split; [|split].
    + intros l Hl. rewrite H2 by (intros Hin; apply Hl; right; exact Hin).
      apply assign_tail_other. intros ->. apply Hl. left. reflexivity.
    + intros l. destruct (H3 l) as [Hx Hy]. rewrite Hx, Hy.
      apply assign_tail_xy.
    + intros i a b Ha Hb. destruct i as [|j].
      * cbn in Ha, Hb. injection Ha as <-. injection Hb as <-.
        rewrite H1, G0. subst h1. rewrite assign_tail_same. reflexivity.
      * cbn [nth_error] in Ha, Hb. exact (H4 j a b Ha Hb).
Qed.

Lemma parse_example :
  PVector.parse "(1,0)+(0,1)"
  = Ret [PVector.mk 1 0 (0, 0); PVector.mk 0 1 (1, 0)].
Proof. cbv. repeat f_equal; lra. Qed.

(** C8 (as amended).  On a list of distinct objects, [tipToTail] returns
    the list, leaves the tail of the first object and every vector as
    they were, touches no object outside the list and makes the tail of
    each later object the tip of the object before it.
    [parse("(1,0)+(0,1)")] gives two vectors, from [(0,0)] to [(1,0)] and
    from [(1,0)] to [(1,1)], and their [sum] is [(1,1)]. *)
Theorem tipToTail_chain (h : PVector.heap) (vecs : list PVector.loc) :
  NoDup vecs ->
  snd (PVector.tipToTail h vecs) = vecs
  /\ (forall v0 rest, vecs = v0 :: rest ->
        PVector.tail (fst (PVector.tipToTail h vecs) v0)
        = PVector.tail (h v0))
  /\ (forall i a b,
        nth_error vecs i = Some a -> nth_error vecs (S i) = Some b ->
        PVector.tail (fst (PVector.tipToTail h vecs) b)
        = PVector.tip (fst (PVector.tipToTail h vecs) a))
  /\ (forall l,
        PVector.x (fst (PVector.tipToTail h vecs) l) = PVector.x (h l)
        /\ PVector.y (fst (PVector.tipToTail h vecs) l) = PVector.y (h l))
  /\ (forall l, ~ In l vecs -> fst (PVector.tipToTail h vecs) l = h l)
  /\ (exists v1 v2 : PVector.t,
        PVector.parse "(1,0)+(0,1)" = Ret [v1; v2]
        /\ PVector.tail v1 = (0, 0) /\ PVector.tip v1 = (1, 0)
        /\ PVector.tail v2 = (1, 0) /\ PVector.tip v2 = (1, 1)
        /\ PVector.x (PVector.sum [v1; v2]) = 1
        /\ PVector.y (PVector.sum [v1; v2]) = 1).
Proof.
  intros Hnd. split; [destruct vecs as [|? [|? ?]]; reflexivity|].
  assert (Hex : exists v1 v2 : PVector.t,
            PVector.parse "(1,0)+(0,1)" = Ret [v1; v2]
            /\ PVector.tail v1 = (0, 0) /\ PVector.tip v1 = (1, 0)
            /\ PVector.tail v2 = (1, 0) /\ PVector.tip v2 = (1, 1)
            /\ PVector.x (PVector.sum [v1; v2]) = 1
            /\ PVector.y (PVector.sum [v1; v2]) = 1).
  { exists (PVector.mk 1 0 (0, 0)), (PVector.mk 0 1 (1, 0)).
    split; [exact parse_example|].
    unfold PVector.tip, PVector.sum, PVector.__init__; simpl.
    repeat split; try reflexivity; try (apply pair_eq; lra); lra. }
  destruct vecs as [|v0 [|v1 r]].
  - cbn [PVector.tipToTail fst].
    split; [discriminate|]. split; [|auto].
    intros i a b Ha. destruct i; discriminate.
  - cbn [PVector.tipToTail fst].
    split; [reflexivity|]. split; [|auto].
    intros i a b _ Hb. destruct i as [|[|i]]; discriminate.
  - cbn [PVector.tipToTail fst].
    destruct (tipToTail_loop_spec (v1 :: r) h v0 Hnd) as [H1 [H2 [H3 H4]]].
    split; [|split; [exact H4 | split; [exact H3 | split; [|exact Hex]]]].
    + intros w rest Heq. injection Heq as <- _. rewrite H1. reflexivity.
    + intros l Hl. apply H2. intros Hin. apply Hl. right. exact Hin.
Qed.

(** The two objects 0 and 1 of a fresh pair of vectors. *)
Lemma tipToTail_chain_witness :
  snd (PVector.tipToTail
         (fst (PVector.fresh [PVector.mk 1 0 (0, 0); PVector.mk 0 1 (0, 0)]))
         [0%nat; 1%nat])
  = [0%nat; 1%nat].
Proof.
  apply (tipToTail_chain
           (fst (PVector.fresh [PVector.mk 1 0 (0, 0); PVector.mk 0 1 (0, 0)]))
           [0%nat; 1%nat]).
  repeat constructor; simpl; intuition discriminate.
Defined.

(** C8, as stated, fails when an object occurs twice: in
    [tipToTail([v, v])] with [v = PVector(xy=(1,0))], the one assignment
    [v.tail = v.tip] moves the tail of the first vector from [(0,0)] to
    [(1,0)], and afterwards the tail of the second is not the tip of the
    first. *)
Lemma tipToTail_aliased :
  let h := fst (PVector.fresh [PVector.__init__ PVector.NoMag 0 (1, 0)]) in
  let h' := fst (PVector.tipToTail h [0%nat; 0%nat]) in
  PVector.tail (h 0%nat) = (0, 0)
  /\ PVector.tail (h' 0%nat) = (1, 0)
  /\ PVector.tail (h' 0%nat) <> PVector.tail (h 0%nat)
  /\ PVector.tail (h' 0%nat) <> PVector.tip (h' 0%nat).
Proof.
  cbv zeta.
  assert (H0 : PVector.tail
                 (fst (PVector.fresh [PVector.__init__ PVector.NoMag 0 (1, 0)])
                    0%nat) = (0, 0)) by reflexivity.
  assert (H1 : PVector.tail
                 (fst (PVector.tipToTail
                         (fst (PVector.fresh
                                 [PVector.__init__ PVector.NoMag 0 (1, 0)]))
                         [0%nat; 0%nat]) 0%nat) = (1, 0)).
  { simpl. unfold PVector.tip, PVector.__init__. simpl.
    apply pair_eq; lra. }
  split; [exact H0|]. split; [exact H1|]. split.
  - rewrite H0, H1. intros H. injection H as H. lra.
  - unfold PVector.tip. rewrite H1. simpl. intros H. injection H as H. lra.
Qed.

(** ** Further properties of Line *)

Lemma hypot_zero_iff (a b : R) : hypot a b = 0 <-> a = 0 /\ b = 0.
Proof.
  split.
  - intros H. pose proof (hypot_sqr a b) as Hs. rewrite H in Hs.
    split; nra.
  - intros [-> ->]. unfold hypot.
    replace (0 * 0 + 0 * 0) with 0 by ring. apply sqrt_0.
Qed.

Lemma parameters_of_point (L : Line.t) (s : R) :
  unit_vector (Line.u L) -> Line.parameters L (Line.point L s) = (s, 0).
Proof.
  unfold unit_vector, Line.parameters, Line.point.
  destruct (Line.pos L) as [px py], (Line.u L) as [ux uy].
  cbn [fst snd]. intros Hu. apply pair_eq.
  - transitivity ((ux * ux + uy * uy) * s); [ring|]. rewrite Hu. ring.
  - ring.
Qed.

(** X1.  [parameters] inverts [point], and its two results are the
    coordinates of a point along the line and across it: the point is
    [pos + s*u + d*n] with [n = (-uy, ux)], and its distance to the point
    of parameter [t] is [hypot(s - t, d)]. *)
Theorem parameters_decompose (L : Line.t) (q : pt) :
  unit_vector (Line.u L) ->
  (forall s : R, Line.parameters L (Line.point L s) = (s, 0))
  /\ q = (fst (Line.point L (fst (Line.parameters L q)))
          + snd (Line.parameters L q) * - snd (Line.u L),
          snd (Line.point L (fst (Line.parameters L q)))
          + snd (Line.parameters L q) * fst (Line.u L))
  /\ (forall t : R,
        dist (Line.point L t) q
        = hypot (fst (Line.parameters L q) - t) (snd (Line.parameters L q))).
Proof.
  intros Hu. split; [intros s; apply parameters_of_point; exact Hu|].
  unfold unit_vector, Line.parameters, Line.point, dist, hypot in *.
  destruct (Line.pos L) as [px py], (Line.u L) as [ux uy], q as [qx qy].
  cbn [fst snd] in *. split.
  - apply pair_eq.
    + transitivity (px + (ux * ux + uy * uy) * (qx - px)); [|ring].
      rewrite Hu. ring.
    + transitivity (py + (ux * ux + uy * uy) * (qy - py)); [|ring].
      rewrite Hu. ring.
  - intros t. f_equal.
    transitivity ((qx - px) * (qx - px) + (qy - py) * (qy - py)
                  - 2 * t * (ux * (qx - px) + uy * (qy - py))
                  + (ux * ux + uy * uy) * (t * t)); [ring|].
    transitivity ((ux * ux + uy * uy) * ((qx - px) * (qx - px)
                                         + (qy - py) * (qy - py))
                  - 2 * t * (ux * (qx - px) + uy * (qy - py))
                  + t * t); [|ring].
    rewrite Hu. ring.
Qed.

Lemma parameters_decompose_witness :
  Line.parameters (Line.mk (0, 0) (1, 0) (Some 1) (1, 0) 1)
    (Line.point (Line.mk (0, 0) (1, 0) (Some 1) (1, 0) 1) 5) = (5, 0).
Proof.
  apply (parameters_decompose (Line.mk (0, 0) (1, 0) (Some 1) (1, 0) 1) (2, 3)).
  unfold unit_vector; simpl; lra.
Defined.

(** X2.  The segment built from two points starts at the first
    ([point(0)]), ends at the second ([point(length)]) and has their mean
    as [midpoint]. *)
Theorem segment_endpoints (w : R) (start p : pt)
    (vector : option Line.vector_arg) (L : Line.t) :
  Line.__init__ w start (Some p) vector = Ret L ->
  Line.point L 0 = start
  /\ exists l : R,
       Line.length L = Some l
       /\ l = dist start p
       /\ Line.point L l = p
       /\ Line.midpoint L
          = Some ((fst start + fst p) / 2, (snd start + snd p) / 2).
Proof.
  intros H.
  destruct (Line_init_inv w start (Some p) vector L H)
    as [d [Hd [Hpos [Hl [Hu [Hp _]]]]]].
  simpl in Hd. injection Hd as <-. cbn [fst snd] in *.
  fold (dist start p) in *. set (l := dist start p) in *.
  destruct start as [sx sy], p as [qx qy]. cbn [fst snd] in *.
  unfold Line.midpoint, Line.point. rewrite Hl, Hu, Hp.
  split; [apply pair_eq; ring|].
  exists l. split; [reflexivity|]. split; [reflexivity|]. split.
  - apply pair_eq; field; lra.
  - f_equal. apply pair_eq; field; lra.
Qed.

Lemma segment_endpoints_witness :
  Line.point (Line.mk (0, 0) (1, 0) (Some 1) (1, 0) 1) 0 = (0, 0).
Proof.
  apply (segment_endpoints 1 (0, 0) (1, 0) None
           (Line.mk (0, 0) (1, 0) (Some 1) (1, 0) 1)).
  exact (new_horizontal 0).
Defined.

(** X3.  The constructor fails in two cases only: with [TypeError] when
    it is given neither a point nor a vector, and with
    [ZeroDivisionError] when the direction is zero (the end point is the
    start, or the vector is [(0, 0)]).  A numeric slope never fails. *)
Theorem Line_init_outcomes (w : R) (start : pt) (point : option pt)
    (vector : option Line.vector_arg) :
  match direction start point vector with
  | None => Line.__init__ w start point vector = Raise TypeError
  | Some d =>
      (d = (0, 0) ->
       Line.__init__ w start point vector = Raise ZeroDivisionError)
      /\ (d <> (0, 0) ->
          exists L : Line.t, Line.__init__ w start point vector = Ret L)
  end
  /\ Line.__init__ w start (Some start) vector = Raise ZeroDivisionError
  /\ (forall m : R,
        exists L : Line.t,
          Line.__init__ w start None (Some (Line.Number m)) = Ret L).
Proof.
  assert (G : forall d : pt,
            (let '(ux, uy) := d in
             if Reqb (hypot ux uy) 0 then @Raise Line.t ZeroDivisionError
             else Ret {| Line.pos := start;
                         Line._size := (Rabs ux, Rabs uy);
                         Line.length := Some (hypot ux uy);
                         Line.u := (ux / hypot ux uy, uy / hypot ux uy);
                         Line.weight := w |})
            = Raise ZeroDivisionError <-> d = (0, 0)).
  { intros [ux uy]. destruct (Reqb (hypot ux uy) 0) eqn:E.
    - apply Reqb_true, hypot_zero_iff in E. destruct E as [-> ->].
      split; reflexivity.
    - apply Reqb_false in E. split; [discriminate|].
      intros He. injection He as -> ->. exfalso. apply E.
      apply hypot_zero_iff. auto. }
  assert (G' : forall d : pt, d <> (0, 0) ->
            exists L : Line.t,
              (let '(ux, uy) := d in
               if Reqb (hypot ux uy) 0 then @Raise Line.t ZeroDivisionError
               else Ret {| Line.pos := start;
                           Line._size := (Rabs ux, Rabs uy);
                           Line.length := Some (hypot ux uy);
                           Line.u := (ux / hypot ux uy, uy / hypot ux uy);
                           Line.weight := w |}) = Ret L).
  { intros [ux uy] Hne. destruct (Reqb (hypot ux uy) 0) eqn:E; [|eauto].
    apply Reqb_true, hypot_zero_iff in E. destruct E as [-> ->].
    contradiction. }
  split; [|split].
  - unfold direction, Line.__init__.
    destruct point as [p|]; [|destruct vector as [[m|v]|]]; cbn [bind].
    + split; [intros Hd | intros Hd].
      * apply (G (fst p - fst start, snd p - snd start)). exact Hd.
      * apply (G' (fst p - fst start, snd p - snd start)). exact Hd.
    + split; [intros Hd | intros Hd].
      * apply (G (1, m)). exact Hd.
      * apply (G' (1, m)). exact Hd.
    + split; [intros Hd | intros Hd].
      * apply (G v). exact Hd.
      * apply (G' v). exact Hd.
    + reflexivity.
  - unfold Line.__init__. cbn [bind].
    apply (G (fst start - fst start, snd start - snd start)).
    apply pair_eq; ring.
  - intros m. unfold Line.__init__. cbn [bind]. apply (G' (1, m)).
    intros H. injection H as H _. lra.
Qed.

Lemma clamp_inside (l c : R) : 0 <= c <= l -> clamp l c = c.
Proof. intros H. unfold clamp. cmp; lra. Qed.

(** X4.  On a segment, [closest] leaves the points of the segment where
    they are and is idempotent: the closest point of a closest point is
    itself. *)
Theorem closest_idempotent (S : Line.t) (l : R) (P : pt) :
  Line.length S = Some l -> 0 < l -> unit_vector (Line.u S) ->
  (forall t : R, 0 <= t <= l ->
     Line.closest S (Line.point S t) = Line.point S t)
  /\ Line.closest S (Line.closest S P) = Line.closest S P.
Proof.
  intros Hl Hpos Hu.
  assert (G : forall t : R, 0 <= t <= l ->
            Line.closest S (Line.point S t) = Line.point S t).
  { intros t Ht. rewrite (closest_clamp S l _ Hl Hpos).
    rewrite (parameters_of_point S t Hu). cbn [fst].
    rewrite (clamp_inside l t Ht). reflexivity. }
  split; [exact G|].
  rewrite (closest_clamp S l P Hl Hpos). apply G.
  apply clamp_range. exact Hpos.
Qed.

Lemma closest_idempotent_witness :
  Line.closest (Line.mk (0, 0) (1, 0) (Some 1) (1, 0) 1)
    (Line.closest (Line.mk (0, 0) (1, 0) (Some 1) (1, 0) 1) (2, 3))
  = Line.closest (Line.mk (0, 0) (1, 0) (Some 1) (1, 0) 1) (2, 3).
Proof.
  apply (closest_idempotent (Line.mk (0, 0) (1, 0) (Some 1) (1, 0) 1) 1 (2, 3)).
  - reflexivity.
  - lra.
  - unfold unit_vector; simpl; lra.
Defined.

(** X5.  When [length] is [None] or [0] nothing is clamped: [closest]
    is the foot of the perpendicular from the point, the vector from it to
    the point is orthogonal to the direction, and no point of the whole
    line, at any parameter, is nearer. *)
Theorem closest_unclamped (L : Line.t) (P : pt) :
  Line.length L = None \/ Line.length L = Some 0 ->
  unit_vector (Line.u L) ->
  Line.closest L P = Line.point L (fst (Line.parameters L P))
  /\ (fst P - fst (Line.closest L P)) * fst (Line.u L)
     + (snd P - snd (Line.closest L P)) * snd (Line.u L) = 0
  /\ (forall t : R, dist (Line.closest L P) P <= dist (Line.point L t) P).
Proof.
  intros Hl Hu.
  assert (E : Line.closest L P = Line.point L (fst (Line.parameters L P))).
  { unfold Line.closest. destruct Hl as [-> | ->]; [reflexivity|].
    assert (E0 : Reqb 0 0 = true) by (apply Reqb_true; reflexivity).
    rewrite E0. reflexivity. }
  rewrite E. split; [reflexivity|].
  unfold unit_vector, Line.parameters, Line.point, dist in *.
  destruct (Line.pos L) as [px py], (Line.u L) as [ux uy], P as [qx qy].
  cbn [fst snd] in *.
  set (s := ux * (qx - px) + uy * (qy - py)). split.
  - transitivity (s - (ux * ux + uy * uy) * s); [unfold s; ring|].
    rewrite Hu. ring.
  - intros t. apply hypot_le.
    assert (Hq : forall a : R,
               (qx - (px + a * ux)) * (qx - (px + a * ux))
               + (qy - (py + a * uy)) * (qy - (py + a * uy))
               = (a - s) * (a - s)
                 + ((qx - px) * (qx - px) + (qy - py) * (qy - py) - s * s)).
    { intros a.
      transitivity ((qx - px) * (qx - px) + (qy - py) * (qy - py)
                    - 2 * a * s + (ux * ux + uy * uy) * (a * a));
        [unfold s; ring|].
      rewrite Hu. ring. }
    rewrite !Hq. apply Rplus_le_compat_r.
    replace ((s - s) * (s - s)) with 0 by ring.
    pose proof (Rle_0_sqr (t - s)) as Hsq. unfold Rsqr in Hsq. exact Hsq.
Qed.

Lemma closest_unclamped_witness :
  Line.closest (Line.mk (0, 0) (1, 0) None (1, 0) 1) (2, 3)
  = Line.point (Line.mk (0, 0) (1, 0) None (1, 0) 1)
      (fst (Line.parameters (Line.mk (0, 0) (1, 0) None (1, 0) 1) (2, 3))).
Proof.
  apply (closest_unclamped (Line.mk (0, 0) (1, 0) None (1, 0) 1) (2, 3)).
  - left. reflexivity.
  - unfold unit_vector; simpl; lra.
Defined.

Lemma resize_direction (a l : R) :
  0 < l -> (if Rltb (a / l) 0 then - Rabs a else Rabs a) = a.
Proof.
  intros Hl.
  destruct (Rltb (a / l) 0) eqn:E;
    [apply Rltb_true in E | apply Rltb_false in E].
  - assert (a < 0).
    { destruct (Rlt_dec a 0) as [Ha|Ha]; [exact Ha|]. exfalso.
      assert (0 <= a / l) by (apply Rle_mult_inv_pos; lra). lra. }
    rewrite Rabs_left by lra. ring.
  - assert (0 <= a).
    { destruct (Rle_dec 0 a) as [Ha|Ha]; [exact Ha|]. exfalso.
      assert (a / l < 0).
      { unfold Rdiv. apply Ropp_lt_cancel. rewrite Ropp_0.
        rewrite Ropp_mult_distr_l. apply Rmult_lt_0_compat; [lra|].
        apply Rinv_0_lt_compat. exact Hl. }
      lra. }
    rewrite Rabs_right by lra. reflexivity.
Qed.

Lemma Line_init_value (w : R) (start : pt) (d : pt) (r : result pt)
    (L : Line.t) :
  r = Ret d ->
  (d <- r ;;
   let '(ux, uy) := d in
   let l := hypot ux uy in
   if Reqb l 0 then Raise ZeroDivisionError
   else Ret {| Line.pos := start;
               Line._size := (Rabs ux, Rabs uy);
               Line.length := Some l;
               Line.u := (ux / l, uy / l);
               Line.weight := w |}) = Ret L ->
  0 < hypot (fst d) (snd d)
  /\ L = Line.mk start (Rabs (fst d), Rabs (snd d))
           (Some (hypot (fst d) (snd d)))
           (fst d / hypot (fst d) (snd d), snd d / hypot (fst d) (snd d)) w.
Proof.
  intros -> H. destruct d as [ux uy]. cbn [bind fst snd] in *.
  destruct (Reqb (hypot ux uy) 0) eqn:E; [discriminate|].
  apply Reqb_false in E. pose proof (hypot_nonneg ux uy).
  injection H as <-. split; [lra | reflexivity].
Qed.

Lemma Line_init_record (w : R) (start : pt) (point : option pt)
    (vector : option Line.vector_arg) (L : Line.t) :
  Line.__init__ w start point vector = Ret L ->
  exists d : pt,
    direction start point vector = Some d
    /\ 0 < hypot (fst d) (snd d)
    /\ L = Line.mk start (Rabs (fst d), Rabs (snd d))
             (Some (hypot (fst d) (snd d)))
             (fst d / hypot (fst d) (snd d), snd d / hypot (fst d) (snd d)) w.
Proof.
  unfold Line.__init__, direction. intros H.
  destruct point as [p|]; [|destruct vector as [[m|v]|]].
  - eexists. split; [reflexivity|].
    exact (Line_init_value w start _ _ L eq_refl H).
  - eexists. split; [reflexivity|].
    exact (Line_init_value w start _ _ L eq_refl H).
  - eexists. split; [reflexivity|].
    exact (Line_init_value w start _ _ L eq_refl H).
  - discriminate.
Qed.

(** X6.  Resizing a line to its own size gives the same line back: the
    signs that [_size] forgets are read off the direction. *)
Theorem resize_own_size (w : R) (start : pt) (point : option pt)
    (vector : option Line.vector_arg) (L : Line.t) :
  Line.__init__ w start point vector = Ret L ->
  Line.resize L (Line._size L) = Ret L.
Proof.
  intros H.
  destruct (Line_init_record w start point vector L H)
    as [[ux uy] [Hd [Hpos ->]]].
  cbn [fst snd] in *. unfold Line.resize.
  cbn [Line.u Line._size Line.weight Line.pos].
  rewrite !resize_direction by exact Hpos.
  unfold Line.__init__. cbn [bind].
  destruct (Reqb (hypot ux uy) 0) eqn:E; [|reflexivity].
  apply Reqb_true in E. lra.
Qed.

Lemma resize_own_size_witness :
  Line.resize (Line.mk (0, 0) (1, 0) (Some 1) (1, 0) 1)
    (Line._size (Line.mk (0, 0) (1, 0) (Some 1) (1, 0) 1))
  = Ret (Line.mk (0, 0) (1, 0) (Some 1) (1, 0) 1).
Proof.
  apply (resize_own_size 1 (0, 0) (Some (1, 0)) None).
  exact (new_horizontal 0).
Defined.

(** X7.  [resize] keeps the anchor and the weight and gives the line the
    size asked for: [_size] is the absolute size and [length] its norm.
    For a size with no negative part, no component of the direction
    changes side.  Only the size [(0, 0)] fails, with
    [ZeroDivisionError]. *)
Theorem resize_outcome (L : Line.t) (sx sy : R) :
  (sx = 0 /\ sy = 0 -> Line.resize L (sx, sy) = Raise ZeroDivisionError)
  /\ (~ (sx = 0 /\ sy = 0) ->
      exists L' : Line.t,
        Line.resize L (sx, sy) = Ret L'
        /\ Line.pos L' = Line.pos L
        /\ Line.weight L' = Line.weight L
        /\ Line._size L' = (Rabs sx, Rabs sy)
        /\ Line.length L' = Some (hypot sx sy)
        /\ unit_vector (Line.u L')
        /\ (0 <= sx ->
            (fst (Line.u L) < 0 -> fst (Line.u L') <= 0)
            /\ (0 <= fst (Line.u L) -> 0 <= fst (Line.u L')))
        /\ (0 <= sy ->
            (snd (Line.u L) < 0 -> snd (Line.u L') <= 0)
            /\ (0 <= snd (Line.u L) -> 0 <= snd (Line.u L')))).
Proof.
  unfold Line.resize, Line.__init__.
  destruct (Line.u L) as [ux uy]. cbn [bind fst snd].
  set (dx := if Rltb ux 0 then - sx else sx).
  set (dy := if Rltb uy 0 then - sy else sy).
  assert (Hh : hypot dx dy = hypot sx sy).
  { unfold hypot. f_equal. subst dx dy.
    destruct (Rltb ux 0), (Rltb uy 0); ring. }
  assert (Hax : Rabs dx = Rabs sx).
  { subst dx. destruct (Rltb ux 0); [apply Rabs_Ropp | reflexivity]. }
  assert (Hay : Rabs dy = Rabs sy).
  { subst dy. destruct (Rltb uy 0); [apply Rabs_Ropp | reflexivity]. }
  rewrite Hh, Hax, Hay. split.
  - intros [-> ->].
    assert (E : Reqb (hypot 0 0) 0 = true)
      by (apply Reqb_true, hypot_zero_iff; auto).
    rewrite E. reflexivity.
  - intros Hne.
    destruct (Reqb (hypot sx sy) 0) eqn:E.
    { apply Reqb_true, hypot_zero_iff in E. contradiction. }
    apply Reqb_false in E. pose proof (hypot_nonneg sx sy) as Hn.
    assert (Hinv : 0 < / hypot sx sy) by (apply Rinv_0_lt_compat; lra).
    eexists. split; [reflexivity|]. cbn [Line.pos Line.weight Line._size
      Line.length Line.u fst snd].
    split; [reflexivity|]. split; [reflexivity|]. split; [reflexivity|].
    split; [reflexivity|]. split; [|split].
    + unfold unit_vector. cbn [fst snd].
      pose proof (hypot_sqr dx dy) as Hs. rewrite Hh in Hs.
      field_simplify_eq; [|exact E]. lra.
    + intros Hsx. unfold Rdiv. subst dx. split; intros Hu.
      * apply Rltb_true in Hu. rewrite Hu. nra.
      * apply Rltb_false in Hu. rewrite Hu. nra.
    + intros Hsy. unfold Rdiv. subst dy. split; intros Hu.
      * apply Rltb_true in Hu. rewrite Hu. nra.
      * apply Rltb_false in Hu. rewrite Hu. nra.
Qed.

(** X8.  For lines that are not parallel, [intersect] does not depend on
    which of the two is asked: [other.intersect(self)] is
    [self.intersect(other)]. *)
Theorem intersect_commutes (self other : Line.t) :
  det self other <> 0 ->
  Line.intersect other self = Line.intersect self other.
Proof.
  unfold det, Line.intersect, Line.in_bound, Line.point.
  destruct self as [[p1x p1y] sz1 l1 [u1x u1y] w1].
  destruct other as [[p2x p2y] sz2 l2 [u2x u2y] w2].
  cbn [Line.u Line.pos Line.length fst snd]. intros Hdet.
  set (D := u2x * u1y - u1x * u2y) in *.
  assert (HD : u1x * u2y - u2x * u1y <> 0) by (unfold D in Hdet; lra).
  assert (E1 : Reqb D 0 = false) by (apply Reqb_false; exact Hdet).
  assert (E2 : Reqb (u1x * u2y - u2x * u1y) 0 = false)
    by (apply Reqb_false; exact HD).
  rewrite E1, E2. cbn [negb].
  set (s1 := (u2x * (p2y - p1y) - u2y * (p2x - p1x)) / D).
  set (s2 := (u1x * (p2y - p1y) - u1y * (p2x - p1x)) / D).
  replace ((u1x * (p1y - p2y) - u1y * (p1x - p2x))
           / (u1x * u2y - u2x * u1y)) with s2
    by (unfold s2, D; field; split; assumption).
  replace ((u2x * (p1y - p2y) - u2y * (p1x - p2x))
           / (u1x * u2y - u2x * u1y)) with s1
    by (unfold s1, D; field; split; assumption).
  assert (Hp : (p2x + s2 * u2x, p2y + s2 * u2y)
               = (p1x + s1 * u1x, p1y + s1 * u1y)).
  { apply pair_eq; unfold s1, s2; field_simplify_eq; trivial;
      unfold D; ring. }
  rewrite Hp.
  destruct (match l2 with Some l => Rleb 0 s2 && Rleb s2 l | None => true end),
           (match l1 with Some l => Rleb 0 s1 && Rleb s1 l | None => true end);
    reflexivity.
Qed.

Lemma intersect_commutes_witness :
  Line.intersect
    (Line.mk (1, -1) (0, 2) (Some 2) (0, 1) 1)
    (Line.mk (0, 0) (2, 0) (Some 2) (1, 0) 1)
  = Line.intersect
      (Line.mk (0, 0) (2, 0) (Some 2) (1, 0) 1)
      (Line.mk (1, -1) (0, 2) (Some 2) (0, 1) 1).
Proof.
  apply (intersect_commutes
           (Line.mk (0, 0) (2, 0) (Some 2) (1, 0) 1)
           (Line.mk (1, -1) (0, 2) (Some 2) (0, 1) 1)).
  unfold det; simpl; lra.
Defined.

(** ** Further properties of Polygon *)

Lemma fold_Rmin_spec (r : list R) :
  forall x : R, is_min (fold_left Rmin r x) (x :: r).
Proof.
  induction r as [|a r IH]; intros x; cbn [fold_left].
  - split; [left; reflexivity|]. intros y [<-|[]]. lra.
  - destruct (IH (Rmin x a)) as [Hin Hle]. split.
    + destruct Hin as [H|H]; [|right; right; exact H].
      rewrite <- H. unfold Rmin. destruct (Rle_dec x a); simpl; auto.
    + intros y [<-|[<-|Hy]].
      * apply Rle_trans with (Rmin x a); [|apply Rmin_l].
        apply Hle. left. reflexivity.
      * apply Rle_trans with (Rmin x a); [|apply Rmin_r].
        apply Hle. left. reflexivity.
      * apply Hle. right. exact Hy.
Qed.

Lemma fold_Rmax_spec (r : list R) :
  forall x : R, is_max (fold_left Rmax r x) (x :: r).
Proof.
  induction r as [|a r IH]; intros x; cbn [fold_left].
  - split; [left; reflexivity|]. intros y [<-|[]]. lra.
  - destruct (IH (Rmax x a)) as [Hin Hle]. split.
    + destruct Hin as [H|H]; [|right; right; exact H].
      rewrite <- H. unfold Rmax. destruct (Rle_dec x a); simpl; auto.
    + intros y [<-|[<-|Hy]].
      * apply Rle_trans with (Rmax x a); [apply Rmax_l|].
        apply Hle. left. reflexivity.
      * apply Rle_trans with (Rmax x a); [apply Rmax_r|].
        apply Hle. left. reflexivity.
      * apply Hle. right. exact Hy.
Qed.

Lemma min_of_spec (xs : list R) (m : R) :
  Polygon.min_of xs = Ret m -> is_min m xs.
Proof.
  destruct xs as [|x r]; [discriminate|]. cbn [Polygon.min_of].
  intros H. injection H as <-. apply fold_Rmin_spec.
Qed.

Lemma max_of_spec (xs : list R) (m : R) :
  Polygon.max_of xs = Ret m -> is_max m xs.
Proof.
  destruct xs as [|x r]; [discriminate|]. cbn [Polygon.max_of].
  intros H. injection H as <-. apply fold_Rmax_spec.
Qed.

Lemma item_spec (pts : list pt) (i : Z) :
  let n := Z.of_nat (List.length pts) in
  ((0 <= i < n)%Z ->
   exists p : pt,
     Polygon.item pts i = Ret p /\ nth_error pts (Z.to_nat i) = Some p)
  /\ ((- n <= i < 0)%Z ->
      exists p : pt,
        Polygon.item pts i = Ret p
        /\ nth_error pts (Z.to_nat (i + n)) = Some p)
  /\ ((i < - n \/ n <= i)%Z -> Polygon.item pts i = Raise IndexError).
Proof.
  cbv zeta. unfold Polygon.item.
  assert (G : forall j : Z,
            (0 <= j < Z.of_nat (List.length pts))%Z ->
            exists p : pt, nth_error pts (Z.to_nat j) = Some p).
  { intros j Hj. destruct (nth_error pts (Z.to_nat j)) as [p|] eqn:E;
      [eauto|]. apply nth_error_None in E. lia. }
  split; [|split]; intros Hi.
  - destruct (Z.ltb_spec i 0); [lia|].
    destruct (Z.ltb_spec i 0); [lia|].
    destruct (Z.leb_spec (Z.of_nat (List.length pts)) i); [lia|].
    cbn [orb]. destruct (G i Hi) as [p Hp]. rewrite Hp. eauto.
  - destruct (Z.ltb_spec i 0); [|lia].
    destruct (Z.ltb_spec (i + Z.of_nat (List.length pts)) 0); [lia|].
    destruct (Z.leb_spec (Z.of_nat (List.length pts))
                (i + Z.of_nat (List.length pts))); [lia|].
    cbn [orb].
    destruct (G (i + Z.of_nat (List.length pts))%Z) as [p Hp]; [lia|].
    rewrite Hp. eauto.
  - destruct (Z.ltb_spec i 0).
    + destruct (Z.ltb_spec (i + Z.of_nat (List.length pts)) 0);
        [reflexivity | lia].
    + destruct (Z.ltb_spec i 0); [lia|].
      destruct (Z.leb_spec (Z.of_nat (List.length pts)) i); [|lia].
      reflexivity.
Qed.

(** X9.  The constructor of Polygon fails on an empty vertex list with
    [ValueError] whatever the anchor asked for, and otherwise only when
    the anchor is an index out of range, with [IndexError].  An index
    counts from the end when negative, as Python's do; an anchor given as
    a point is taken as it is. *)
Theorem Polygon_init_outcomes (a w : R) (pts : list pt)
    (pos : Polygon.pos_arg) :
  Polygon.__init__ a w [] pos = Raise (ValueError EmptySequence)
  /\ (pts <> [] ->
      (exists P : Polygon.t,
         Polygon.__init__ a w pts Polygon.Default = Ret P
         /\ Polygon.vertices P = pts)
      /\ (forall p : pt,
            exists P : Polygon.t,
              Polygon.__init__ a w pts (Polygon.At p) = Ret P
              /\ Polygon.vertices P = pts /\ Polygon._pos P = p)
      /\ (forall i : Z,
            let n := Z.of_nat (List.length pts) in
            ((0 <= i < n)%Z ->
             exists P : Polygon.t,
               Polygon.__init__ a w pts (Polygon.Index i) = Ret P
               /\ Polygon.vertices P = pts
               /\ nth_error pts (Z.to_nat i) = Some (Polygon._pos P))
            /\ ((- n <= i < 0)%Z ->
                exists P : Polygon.t,
                  Polygon.__init__ a w pts (Polygon.Index i) = Ret P
                  /\ Polygon.vertices P = pts
                  /\ nth_error pts (Z.to_nat (i + n)) = Some (Polygon._pos P))
            /\ ((i < - n \/ n <= i)%Z ->
                Polygon.__init__ a w pts (Polygon.Index i)
                = Raise IndexError))).
Proof.
  split; [reflexivity|]. intros Hne.
  destruct pts as [|q pts]; [contradiction|].
  unfold Polygon.__init__.
  cbn [map Polygon.min_of Polygon.max_of bind].
  split; [eexists; split; reflexivity|].
  split; [intros p; eexists; repeat split; reflexivity|].
  intros i. cbv zeta.
  destruct (item_spec (q :: pts) i) as [H1 [H2 H3]].
  split; [|split]; intros Hi.
  - destruct (H1 Hi) as [p [-> Hp]]. cbn [bind].
    eexists. split; [reflexivity|]. split; [reflexivity | exact Hp].
  - destruct (H2 Hi) as [p [-> Hp]]. cbn [bind].
    eexists. split; [reflexivity|]. split; [reflexivity | exact Hp].
  - rewrite (H3 Hi). reflexivity.
Qed.

(** X10.  With no anchor given, the anchor is the centre of the box
    around the vertices: half way between the least and the greatest x
    and between the least and the greatest y of the vertices. *)
Theorem default_anchor_centre (a w : R) (pts : list pt) (P : Polygon.t) :
  Polygon.__init__ a w pts Polygon.Default = Ret P ->
  exists x0 x1 y0 y1 : R,
    is_min x0 (map fst pts) /\ is_max x1 (map fst pts)
    /\ is_min y0 (map snd pts) /\ is_max y1 (map snd pts)
    /\ Polygon._pos P = ((x0 + x1) / 2, (y0 + y1) / 2)
    /\ x0 <= fst (Polygon._pos P) <= x1
    /\ y0 <= snd (Polygon._pos P) <= y1
    /\ Polygon.vertices P = pts.
Proof.
  unfold Polygon.__init__. intros H.
  destruct (Polygon.min_of (map fst pts)) as [x0| |] eqn:Ex0;
    try discriminate.
  destruct (Polygon.max_of (map fst pts)) as [x1| |] eqn:Ex1;
    try discriminate.
  destruct (Polygon.min_of (map snd pts)) as [y0| |] eqn:Ey0;
    try discriminate.
  destruct (Polygon.max_of (map snd pts)) as [y1| |] eqn:Ey1;
    try discriminate.
  cbn [bind] in H. injection H as <-.
  apply min_of_spec in Ex0, Ey0. apply max_of_spec in Ex1, Ey1.
  exists x0, x1, y0, y1. cbn [Polygon._pos Polygon.vertices fst snd].
  assert (x0 <= x1) by (apply Ex1, Ex0).
  assert (y0 <= y1) by (apply Ey1, Ey0).
  split; [exact Ex0|]. split; [exact Ex1|].
  split; [exact Ey0|]. split; [exact Ey1|].
  split; [reflexivity|]. split; [lra|]. split; [lra | reflexivity].
Qed.

Lemma default_anchor_centre_witness :
  exists x0 x1 y0 y1 : R,
    Polygon._pos unit_square = ((x0 + x1) / 2, (y0 + y1) / 2).
Proof.
  destruct (default_anchor_centre 0 1 [(0, 0); (1, 0); (1, 1); (0, 1)]
              unit_square unit_square_new)
    as [x0 [x1 [y0 [y1 H]]]].
  exists x0, x1, y0, y1. tauto.
Defined.

Lemma map_nonempty (A B : Type) (f : A -> B) (l : list A) :
  l <> [] -> map f l <> [].
Proof. destruct l; [contradiction | discriminate]. Qed.

(** X11.  Assigning [pos] moves the anchor there, moves every vertex by
    the same offset and keeps the angle; assigning the old position again
    puts every vertex back. *)
Theorem set_pos_translates (P : Polygon.t) (pos : pt) :
  Polygon.vertices P <> [] ->
  exists P' P'' : Polygon.t,
    Polygon.set_pos P pos = Ret P'
    /\ Polygon._pos P' = pos
    /\ Polygon._angle P' = Polygon._angle P
    /\ Polygon.vertices P'
       = map (translate (fst pos - fst (Polygon._pos P),
                         snd pos - snd (Polygon._pos P)))
           (Polygon.vertices P)
    /\ Polygon.set_pos P' (Polygon._pos P) = Ret P''
    /\ Polygon._pos P'' = Polygon._pos P
    /\ Polygon.vertices P'' = Polygon.vertices P.
Proof.
  intros Hne. unfold Polygon.set_pos.
  set (d := (fst pos - fst (Polygon._pos P), snd pos - snd (Polygon._pos P))).
  set (pts1 := map (fun p => (fst p + fst d, snd p + snd d))
                 (Polygon.vertices P)).
  destruct (Polygon_init_at (Polygon._angle P) (Polygon.weight P) pts1 pos)
    as [r1 H1]; [apply map_nonempty; exact Hne|].
  set (P1 := Polygon.mk pos r1 pts1 (Polygon._angle P) (Polygon.weight P))
    in *.
  set (pts2 := map (fun p => (fst p + (fst (Polygon._pos P) - fst pos),
                              snd p + (snd (Polygon._pos P) - snd pos)))
                 pts1).
  destruct (Polygon_init_at (Polygon._angle P) (Polygon.weight P) pts2
              (Polygon._pos P))
    as [r2 H2]; [apply map_nonempty, map_nonempty; exact Hne|].
  exists P1. eexists.
  split; [exact H1|]. split; [reflexivity|]. split; [reflexivity|].
  split; [reflexivity|]. split; [exact H2|]. split; [reflexivity|].
  cbn [Polygon.vertices]. subst pts2 pts1. rewrite map_map.
  rewrite <- (map_id (Polygon.vertices P)) at 2.
  apply map_ext. intros [x y]. subst d. cbn [fst snd].
  apply pair_eq; ring.
Qed.

Lemma set_pos_translates_witness :
  exists P' : Polygon.t,
    Polygon.set_pos unit_square (3, 4) = Ret P' /\ Polygon._pos P' = (3, 4).
Proof.
  destruct (set_pos_translates unit_square (3, 4)) as [P' [P'' H]].
  - unfold unit_square; simpl; discriminate.
  - exists P'. tauto.
Defined.

Lemma transform2d_rigid (c p : pt) (a : R) :
  dist c (Geom.transform2d p (- fst c, - snd c) a c) = dist c p.
Proof.
  unfold dist, hypot, Geom.transform2d. destruct c as [cx cy], p as [x y].
  cbn [fst snd]. f_equal.
  pose proof (sin2_cos2_mul (a * Geom.DEG)) as H.
  set (co := cos (a * Geom.DEG)) in *. set (si := sin (a * Geom.DEG)) in *.
  transitivity ((si * si + co * co)
                * ((x - cx) * (x - cx) + (y - cy) * (y - cy))); [ring|].
  rewrite H. ring.
Qed.

(** X12.  Assigning [angle] turns the polygon by the difference with its
    present angle: afterwards [angle] is the value assigned, the anchor
    has not moved, there are as many vertices as before and each is as
    far from the anchor as it was. *)
Theorem set_angle_rigid (P : Polygon.t) (a : R) :
  Polygon.vertices P <> [] ->
  exists P' : Polygon.t,
    Polygon.set_angle P a = Ret P'
    /\ Polygon._angle P' = a
    /\ Polygon._pos P' = Polygon._pos P
    /\ List.length (Polygon.vertices P') = List.length (Polygon.vertices P)
    /\ (forall (i : nat) (v v' : pt),
          nth_error (Polygon.vertices P) i = Some v ->
          nth_error (Polygon.vertices P') i = Some v' ->
          dist (Polygon._pos P) v' = dist (Polygon._pos P) v).
Proof.
  intros Hne. unfold Polygon.set_angle.
  destruct (Polygon_rotate_returns P (a - Polygon._angle P) Hne) as [r H].
  eexists. split; [exact H|].
  cbn [Polygon._angle Polygon._pos Polygon.vertices].
  split; [ring|]. split; [reflexivity|].
  unfold Geom.transform2dGen. split; [apply length_map|].
  intros i v v' Hv Hv'. rewrite nth_error_map, Hv in Hv'.
  injection Hv' as <-. apply transform2d_rigid.
Qed.

Lemma set_angle_rigid_witness :
  exists P' : Polygon.t,
    Polygon.set_angle unit_square 30 = Ret P' /\ Polygon._angle P' = 30.
Proof.
  destruct (set_angle_rigid unit_square 30) as [P' H].
  - unfold unit_square; simpl; discriminate.
  - exists P'. tauto.
Defined.

Lemma transform2d_compose (c p : pt) (a b : R) :
  Geom.transform2d (Geom.transform2d p (- fst c, - snd c) a c)
    (- fst c, - snd c) b c
  = Geom.transform2d p (- fst c, - snd c) (a + b) c.
Proof.
  unfold Geom.transform2d. destruct c as [cx cy], p as [x y].
  cbn [fst snd]. rewrite Rmult_plus_distr_r, cos_plus, sin_plus.
  apply pair_eq; ring.
Qed.

(** X13.  Rotations add up: turning a polygon by [a] and then by [b]
    gives the vertices, the anchor and the angle that turning it by
    [a + b] gives. *)
Theorem rotate_compose (P : Polygon.t) (a b : R) :
  Polygon.vertices P <> [] ->
  exists P1 P2 P3 : Polygon.t,
    Polygon.rotate P a = Ret P1
    /\ Polygon.rotate P1 b = Ret P2
    /\ Polygon.rotate P (a + b) = Ret P3
    /\ Polygon.vertices P2 = Polygon.vertices P3
    /\ Polygon._pos P2 = Polygon._pos P3
    /\ Polygon._angle P2 = Polygon._angle P3.
Proof.
  intros Hne.
  destruct (Polygon_rotate_returns P a Hne) as [r1 H1].
  match type of H1 with _ = Ret ?Q => set (P1 := Q) in * end.
  destruct (Polygon_rotate_returns P1 b) as [r2 H2].
  { subst P1. cbn [Polygon.vertices]. unfold Geom.transform2dGen.
    apply map_nonempty. exact Hne. }
  destruct (Polygon_rotate_returns P (a + b) Hne) as [r3 H3].
  exists P1. eexists. eexists.
  split; [exact H1|]. split; [exact H2|]. split; [exact H3|].
  subst P1. cbn [Polygon.vertices Polygon._pos Polygon._angle].
  split; [|split; [reflexivity | ring]].
  unfold Geom.transform2dGen. rewrite map_map.
  apply map_ext. intros p. apply transform2d_compose.
Qed.

Lemma rotate_compose_witness :
  exists P1 P2 P3 : Polygon.t,
    Polygon.rotate unit_square 30 = Ret P1
    /\ Polygon.rotate P1 60 = Ret P2
    /\ Polygon.rotate unit_square (30 + 60) = Ret P3
    /\ Polygon.vertices P2 = Polygon.vertices P3.
Proof.
  destruct (rotate_compose unit_square 30 60) as [P1 [P2 [P3 H]]].
  - unfold unit_square; simpl; discriminate.
  - exists P1, P2, P3. tauto.
Defined.

Lemma pt_eq_dec (p q : pt) : {p = q} + {p <> q}.
Proof.
  destruct p as [a b], q as [c d].
  destruct (Req_dec_T a c) as [->|Ha]; [|right; intros H; injection H; auto].
  destruct (Req_dec_T b d) as [->|Hb]; [left; reflexivity|].
  right. intros H. injection H. auto.
Qed.

Lemma Line_new_same (p : pt) :
  Line.new p (Some p) None = Raise ZeroDivisionError.
Proof.
  unfold Line.new, Line.__init__. cbn [bind].
  assert (E : Reqb (hypot (fst p - fst p) (snd p - snd p)) 0 = true).
  { apply Reqb_true, hypot_zero_iff. split; ring. }
  rewrite E. reflexivity.
Qed.

Lemma Line_new_segment (p1 p2 : pt) :
  p1 <> p2 ->
  exists s : Line.t,
    Line.new p1 (Some p2) None = Ret s
    /\ Line.pos s = p1 /\ far_end s = Some p2.
Proof.
  intros Hne. unfold Line.new, Line.__init__. cbn [bind].
  destruct p1 as [x1 y1], p2 as [x2 y2]. cbn [fst snd].
  destruct (Reqb (hypot (x2 - x1) (y2 - y1)) 0) eqn:E.
  - apply Reqb_true, hypot_zero_iff in E. destruct E as [Ex Ey].
    exfalso. apply Hne. apply pair_eq; lra.
  - apply Reqb_false in E. eexists. split; [reflexivity|].
    split; [reflexivity|]. unfold far_end, Line.point.
    cbn [Line.length Line.pos Line.u]. f_equal.
    apply pair_eq; field; exact E.
Qed.

Lemma segments_from_spec (pts : list pt) :
  forall p1 : pt,
    (no_repeat p1 pts ->
     exists ss : list Line.t,
       Polygon.segments_from p1 pts = Ret ss
       /\ map Line.pos ss = removelast (p1 :: pts)
       /\ map far_end ss = map Some pts)
    /\ (~ no_repeat p1 pts ->
        Polygon.segments_from p1 pts = Raise ZeroDivisionError).
Proof.
  induction pts as [|p2 rest IH]; intros p1;
    cbn [Polygon.segments_from no_repeat].
  - split; [|tauto]. intros _. exists []. auto.
  - destruct (pt_eq_dec p1 p2) as [->|Hne].
    + rewrite Line_new_same. cbn [bind]. split; [|reflexivity].
      intros [H _]. contradiction.
    + destruct (Line_new_segment p1 p2 Hne) as [s [-> [Hp Hf]]].
      cbn [bind]. destruct (IH p2) as [Hok Hbad]. split.
      * intros [_ Hr]. destruct (Hok Hr) as [ss [-> [Hpos Hfar]]].
        cbn [bind]. exists (s :: ss). split; [reflexivity|].
        cbn [map]. rewrite Hp, Hf, Hpos, Hfar. split; reflexivity.
      * intros Hn. rewrite Hbad; [reflexivity|]. tauto.
Qed.

(** X14.  The edges of a polygon form a closed chain: there is one per
    vertex, the first starts at the last vertex, each starts where the
    one before it ends, and the [i]-th ends at vertex [i].  Building them
    fails with [ZeroDivisionError] as soon as two neighbouring vertices
    (the last and the first included) coincide, so always for a single
    vertex, and with [IndexError] when there is no vertex. *)
Theorem segments_closed_chain (P : Polygon.t) :
  (Polygon.vertices P = [] -> Polygon._segments P = Raise IndexError)
  /\ (forall q : pt,
        Polygon.vertices P = [q] ->
        Polygon._segments P = Raise ZeroDivisionError)
  /\ (forall p1 : pt,
        nth_error (Polygon.vertices P)
          (List.length (Polygon.vertices P) - 1) = Some p1 ->
        (no_repeat p1 (Polygon.vertices P) ->
         exists ss : list Line.t,
           Polygon._segments P = Ret ss
           /\ List.length ss = List.length (Polygon.vertices P)
           /\ map Line.pos ss = removelast (p1 :: Polygon.vertices P)
           /\ map far_end ss = map Some (Polygon.vertices P))
        /\ (~ no_repeat p1 (Polygon.vertices P) ->
            Polygon._segments P = Raise ZeroDivisionError)).
Proof.
  unfold Polygon._segments.
  assert (Hlast : forall p1 : pt,
            nth_error (Polygon.vertices P)
              (List.length (Polygon.vertices P) - 1) = Some p1 ->
            Polygon.item (Polygon.vertices P) (-1) = Ret p1).
  { intros p1 Hp.
    assert (Hn : (0 < List.length (Polygon.vertices P))%nat).
    { assert (List.length (Polygon.vertices P) - 1
              < List.length (Polygon.vertices P))%nat
        by (apply nth_error_Some; rewrite Hp; discriminate).
      lia. }
    destruct (item_spec (Polygon.vertices P) (-1)) as [_ [H _]].
    destruct H as [p [Hi Hp']]; [lia|]. rewrite Hi. f_equal.
    replace (Z.to_nat (-1 + Z.of_nat (List.length (Polygon.vertices P))))
      with (List.length (Polygon.vertices P) - 1)%nat in Hp' by lia.
    congruence. }
  split; [|split].
  - intros ->. reflexivity.
  - intros q Hq. rewrite (Hlast q) by (rewrite Hq; reflexivity).
    cbn [bind]. rewrite Hq.
    apply (segments_from_spec [q] q). cbn [no_repeat]. tauto.
  - intros p1 Hp. rewrite (Hlast p1 Hp). cbn [bind].
    destruct (segments_from_spec (Polygon.vertices P) p1) as [Hok Hbad].
    split; [|exact Hbad].
    intros Hr. destruct (Hok Hr) as [ss [Hs [Hpos Hfar]]].
    exists ss. split; [exact Hs|]. split; [|split; assumption].
    rewrite <- (length_map far_end), Hfar, length_map. reflexivity.
Qed.

(** X15.  [arrow] never fails and always puts the tip of the arrow, its
    first vertex and its anchor, at [pos]; the polygon has seven
    vertices.  For a numeric tail nothing is rotated: the angle stays [0]
    and the vertices are those of [Polygon.arrow] moved by [pos]. *)
Theorem arrow_tip_at_pos (delta : pt -> pt -> pt) (atan2 : R -> R -> R)
    (pos : pt) (tail : Polygon.tail_arg) (width head flatness : R) :
  exists A : Polygon.t,
    Shape.arrow delta atan2 pos tail width head flatness = Ret A
    /\ Polygon._pos A = pos
    /\ hd_error (Polygon.vertices A) = Some pos
    /\ List.length (Polygon.vertices A) = 7%nat
    /\ (forall t : R,
          tail = Polygon.Length t ->
          Polygon._angle A = 0
          /\ Polygon.vertices A
             = map (translate pos)
                 (fst (Polygon.arrow delta atan2 pos tail
                         width head flatness))).
Proof.
  unfold Shape.arrow.
  destruct (Polygon.arrow delta atan2 pos tail width head flatness)
    as [pts angle] eqn:EA.
  assert (Hpts : exists p1 p2 p3 p4 p5 p6 : pt,
            pts = [(0, 0); p1; p2; p3; p4; p5; p6]).
  { unfold Polygon.arrow in EA.
    destruct (match tail with
              | Polygon.Length t => (t, 0)
              | Polygon.Point p =>
                  (hypot (fst (delta pos p)) (snd (delta pos p)),
                   atan2 (snd (delta pos p)) (fst (delta pos p)))
              end) as [tl an].
    apply (f_equal fst) in EA. cbn [fst] in EA. rewrite <- EA.
    do 6 eexists. reflexivity. }
  destruct Hpts as [p1 [p2 [p3 [p4 [p5 [p6 ->]]]]]].
  assert (Hang : forall t : R, tail = Polygon.Length t -> angle = 0).
  { intros t ->. unfold Polygon.arrow in EA.
    apply (f_equal snd) in EA. cbn [snd] in EA. symmetry. exact EA. }
  unfold Polygon.new, Polygon.__init__ at 1.
  cbn [map Polygon.min_of Polygon.max_of bind Polygon.item List.length
       Z.of_nat Z.ltb Z.leb Z.compare orb Z.to_nat nth_error
       Pos.of_succ_nat Pos.succ Pos.compare Pos.compare_cont].
  unfold Polygon.set_pos.
  cbn [Polygon._pos Polygon.vertices Polygon._angle Polygon.weight fst snd].
  match goal with
  | |- context [Polygon.__init__ 0 1 ?l (Polygon.At pos)] =>
      set (pts1 := l)
  end.
  destruct (Polygon_init_at 0 1 pts1 pos) as [r1 H1];
    [subst pts1; discriminate|].
  rewrite H1. cbn [bind].
  assert (Hhd : hd_error pts1 = Some pos).
  { subst pts1. cbn [map hd_error fst snd]. apply f_equal.
    destruct pos as [x y]. cbn [fst snd]. apply pair_eq; ring. }
  assert (Htr : pts1 = map (translate pos)
                         [(0, 0); p1; p2; p3; p4; p5; p6]).
  { subst pts1. apply map_ext. intros [x y]. unfold translate.
    cbn [fst snd]. apply pair_eq; ring. }
  destruct (Reqb angle 0) eqn:E; cbn [negb].
  - eexists. split; [reflexivity|].
    cbn [Polygon._pos Polygon.vertices Polygon._angle].
    split; [reflexivity|]. split; [exact Hhd|].
    split; [subst pts1; reflexivity|].
    intros t Ht. split; [reflexivity | exact Htr].
  - set (P1 := Polygon.mk pos r1 pts1 0 1).
    destruct (Polygon_rotate_returns P1 (angle / Geom.DEG - 0)) as [r2 H2];
      [subst P1 pts1; discriminate|].
    unfold Polygon.set_angle. subst P1. cbn [Polygon._angle]. rewrite H2.
    eexists. split; [reflexivity|].
    cbn [Polygon._pos Polygon.vertices Polygon._angle].
    split; [reflexivity|]. split; [|split].
    + unfold Geom.transform2dGen. subst pts1. cbn [map hd_error fst snd].
      apply f_equal. unfold Geom.transform2d. destruct pos as [x y].
      cbn [fst snd]. apply pair_eq; ring.
    + unfold Geom.transform2dGen. rewrite length_map. subst pts1.
      reflexivity.
    + intros t Ht. apply Reqb_false in E. exfalso. apply E.
      exact (Hang t Ht).
Qed.

(** ** Further properties of PVector *)

(** X16.  Assigning [tip] or [csPos] moves the tail so that the tip, or
    the midpoint, is where it was put, and leaves the vector alone;
    assigning the present tip or midpoint changes nothing. *)
Theorem tip_csPos_setters (v : PVector.t) (xy : pt) :
  PVector.tip (PVector.set_tip v xy) = xy
  /\ PVector.csPos (PVector.set_csPos v xy) = xy
  /\ PVector.x (PVector.set_tip v xy) = PVector.x v
  /\ PVector.y (PVector.set_tip v xy) = PVector.y v
  /\ PVector.x (PVector.set_csPos v xy) = PVector.x v
  /\ PVector.y (PVector.set_csPos v xy) = PVector.y v
  /\ PVector.set_tip v (PVector.tip v) = v
  /\ PVector.set_csPos v (PVector.csPos v) = v.
Proof.
  destruct v as [vx vy [tx ty]], xy as [a b].
  unfold PVector.tip, PVector.csPos, PVector.set_tip, PVector.set_csPos,
    PVector.set_tail.
  cbn [PVector.x PVector.y PVector.tail fst snd].
  repeat split; try reflexivity;
    try (apply pair_eq; field); f_equal; apply pair_eq; field.
Qed.

Lemma Rltb_1_0 : Rltb 1 0 = false.
Proof. apply Rltb_false. lra. Qed.

Lemma unit_polar (a : R) :
  PVector.__init__ (PVector.Mag 1) a (0, 0)
  = PVector.mk (1 * cos (a * (PI / 180))) (1 * sin (a * (PI / 180))) (0, 0).
Proof.
  unfold PVector.__init__. rewrite Rltb_1_0. reflexivity.
Qed.

Lemma proj_angle (v : PVector.t) (a : R) :
  PVector.proj v (PVector.Angle a)
  = Some (PVector.mk
            (1 * cos (a * (PI / 180))
             * (1 * cos (a * (PI / 180)) * PVector.x v
                + 1 * sin (a * (PI / 180)) * PVector.y v))
            (1 * sin (a * (PI / 180))
             * (1 * cos (a * (PI / 180)) * PVector.x v
                + 1 * sin (a * (PI / 180)) * PVector.y v))
            (PVector.tail v),
          PVector.mk (1 * cos (a * (PI / 180))) (1 * sin (a * (PI / 180)))
            (0, 0)).
Proof.
  unfold PVector.proj. rewrite unit_polar. reflexivity.
Qed.

Lemma cos_90 : cos (90 * (PI / 180)) = 0.
Proof. replace (90 * (PI / 180)) with (PI / 2) by field. apply cos_PI2. Qed.

Lemma sin_90 : sin (90 * (PI / 180)) = 1.
Proof. replace (90 * (PI / 180)) with (PI / 2) by field. apply sin_PI2. Qed.

Lemma cos_0_deg : cos (0 * (PI / 180)) = 1.
Proof. rewrite Rmult_0_l. apply cos_0. Qed.

Lemma sin_0_deg : sin (0 * (PI / 180)) = 0.
Proof. rewrite Rmult_0_l. apply sin_0. Qed.

(** X17.  [components] always returns two vectors, the first along x
    and the second along y, that add up to the vector.  The first starts
    at the tail of the vector, the second starts where the first ends and
    ends at the tip of the vector. *)
Theorem components_add_up (v : PVector.t) :
  exists cx cy : PVector.t,
    PVector.components v = Some [cx; cy]
    /\ PVector.x cx = PVector.x v /\ PVector.y cx = 0
    /\ PVector.x cy = 0 /\ PVector.y cy = PVector.y v
    /\ PVector.tail cx = PVector.tail v
    /\ PVector.tail cy = PVector.tip cx
    /\ PVector.tip cy = PVector.tip v
    /\ PVector.x (PVector.sum [cx; cy]) = PVector.x v
    /\ PVector.y (PVector.sum [cx; cy]) = PVector.y v.
Proof.
  unfold PVector.components. rewrite !proj_angle.
  rewrite cos_90, sin_90, cos_0_deg, sin_0_deg.
  eexists. eexists. split; [reflexivity|].
  destruct v as [vx vy [tx ty]].
  unfold PVector.set_tip, PVector.set_tail, PVector.tip, PVector.sum,
    PVector.__init__.
  cbn [PVector.x PVector.y PVector.tail fst snd fold_left].
  repeat split; try ring; apply pair_eq; ring.
Qed.

(** X18.  The projection on a direction given by an angle keeps the tail
    of the vector, is parallel to the direction, leaves a rest that is
    orthogonal to it and is not changed by projecting again. *)
Theorem proj_on_angle (v : PVector.t) (a : R) :
  exists p u : PVector.t,
    PVector.proj v (PVector.Angle a) = Some (p, u)
    /\ PVector.tail p = PVector.tail v
    /\ PVector.x u = cos (a * (PI / 180))
    /\ PVector.y u = sin (a * (PI / 180))
    /\ PVector.x p * PVector.y u = PVector.y p * PVector.x u
    /\ (PVector.x v - PVector.x p) * PVector.x u
       + (PVector.y v - PVector.y p) * PVector.y u = 0
    /\ PVector.proj p (PVector.Angle a) = Some (p, u).
Proof.
  rewrite proj_angle. eexists. eexists. split; [reflexivity|].
  cbn [PVector.x PVector.y PVector.tail].
  pose proof (sin2_cos2_mul (a * (PI / 180))) as H.
  set (c := cos (a * (PI / 180))) in *. set (s := sin (a * (PI / 180))) in *.
  split; [reflexivity|]. split; [ring|]. split; [ring|]. split; [ring|].
  split.
  - transitivity ((c * PVector.x v + s * PVector.y v)
                  * (1 - (s * s + c * c))); [ring|]. rewrite H. ring.
  - rewrite proj_angle. cbn [PVector.x PVector.y PVector.tail].
    fold c s. f_equal. f_equal. f_equal.
    + transitivity (c * (c * PVector.x v + s * PVector.y v)
                    * (s * s + c * c)); [ring|]. rewrite H. ring.
    + transitivity (s * (c * PVector.x v + s * PVector.y v)
                    * (s * s + c * c)); [ring|]. rewrite H. ring.
Qed.

Lemma normalized_unit (x y : R) :
  hypot x y <> 0 ->
  x / hypot x y * (x / hypot x y) + y / hypot x y * (y / hypot x y) = 1.
Proof.
  intros E. pose proof (hypot_sqr x y) as Hs.
  set (h := hypot x y) in *.
  replace (x / h * (x / h) + y / h * (y / h))
    with ((x * x + y * y) / (h * h)) by (field; exact E).
  rewrite <- Hs. field. exact E.
Qed.

(** X19.  The projection on a PVector [u] fails exactly when [u] is the
    zero vector.  Otherwise [u] is left normalised in place (same tail,
    length one, same direction).  When [u] is another object than the
    vector projected, the projection keeps the tail of that vector and
    leaves a rest orthogonal to [u].  In [v.proj(v)] it is [v] itself
    that is normalised before the products are taken: [v] becomes the
    unit vector of its direction and the projection returned has the
    components of that unit vector, not those of the original [v]. *)
Theorem proj_on_vector (v w : PVector.t) :
  (PVector.proj v (PVector.Along w) = None <->
   PVector.x w = 0 /\ PVector.y w = 0)
  /\ (forall p u : PVector.t,
        PVector.proj v (PVector.Along w) = Some (p, u) ->
        PVector.tail u = PVector.tail w
        /\ PVector.mag u = 1
        /\ PVector.x u * PVector.mag w = PVector.x w
        /\ PVector.y u * PVector.mag w = PVector.y w
        /\ PVector.tail p = PVector.tail v
        /\ (PVector.x v - PVector.x p) * PVector.x w
           + (PVector.y v - PVector.y p) * PVector.y w = 0)
  /\ (PVector.proj v PVector.Itself = None <->
      PVector.x v = 0 /\ PVector.y v = 0)
  /\ (forall p u : PVector.t,
        PVector.proj v PVector.Itself = Some (p, u) ->
        PVector.tail u = PVector.tail v
        /\ PVector.mag u = 1
        /\ PVector.x u * PVector.mag v = PVector.x v
        /\ PVector.y u * PVector.mag v = PVector.y v
        /\ PVector.tail p = PVector.tail v
        /\ PVector.x p = PVector.x u
        /\ PVector.y p = PVector.y u).
Proof.
  assert (Hmag1 : forall x y : R, hypot x y <> 0 ->
            hypot (x / hypot x y) (y / hypot x y) = 1).
  { intros x y E. unfold hypot at 1. rewrite (normalized_unit x y E).
    apply sqrt_1. }
  split; [|split; [|split]].
  - unfold PVector.proj, PVector.normalize_ip, PVector.mag.
    destruct (Reqb (hypot (PVector.x w) (PVector.y w)) 0) eqn:E;
      cbn [option_map].
    + apply Reqb_true in E.
      split; [intros _; apply hypot_zero_iff; exact E | reflexivity].
    + apply Reqb_false in E. split; [discriminate|].
      intros H. apply hypot_zero_iff in H. contradiction.
  - intros p u. unfold PVector.proj, PVector.normalize_ip, PVector.mag.
    destruct (Reqb (hypot (PVector.x w) (PVector.y w)) 0) eqn:E;
      cbn [option_map]; [discriminate|].
    apply Reqb_false in E.
    cbn [PVector.__mul__ PVector.x PVector.y PVector.__init__
         PVector.tail fst snd].
    intros H. injection H as <- <-. unfold PVector.set_tail.
    cbn [PVector.x PVector.y PVector.tail].
    pose proof (hypot_sqr (PVector.x w) (PVector.y w)) as Hs.
    split; [reflexivity|]. split; [apply Hmag1; exact E|].
    set (h := hypot (PVector.x w) (PVector.y w)) in *.
    split; [field; exact E|]. split; [field; exact E|].
    split; [reflexivity|].
    transitivity ((PVector.x v * PVector.x w + PVector.y v * PVector.y w)
                  * (1 - (PVector.x w * PVector.x w
                          + PVector.y w * PVector.y w) / (h * h)));
      [field; exact E|].
    rewrite <- Hs. field. exact E.
  - unfold PVector.proj, PVector.normalize_ip, PVector.mag.
    destruct (Reqb (hypot (PVector.x v) (PVector.y v)) 0) eqn:E;
      cbn [option_map].
    + apply Reqb_true in E.
      split; [intros _; apply hypot_zero_iff; exact E | reflexivity].
    + apply Reqb_false in E. split; [discriminate|].
      intros H. apply hypot_zero_iff in H. contradiction.
  - intros p u. unfold PVector.proj, PVector.normalize_ip, PVector.mag.
    destruct (Reqb (hypot (PVector.x v) (PVector.y v)) 0) eqn:E;
      cbn [option_map]; [discriminate|].
    apply Reqb_false in E.
    cbn [PVector.__mul__ PVector.x PVector.y PVector.__init__
         PVector.tail fst snd].
    intros H. injection H as <- <-. unfold PVector.set_tail.
    cbn [PVector.x PVector.y PVector.tail].
    pose proof (normalized_unit (PVector.x v) (PVector.y v) E) as Hn.
    split; [reflexivity|]. split; [apply Hmag1; exact E|].
    set (h := hypot (PVector.x v) (PVector.y v)) in *.
    split; [field; exact E|]. split; [field; exact E|].
    split; [reflexivity|]. split; rewrite Hn; ring.
Qed.

(** [v.proj(v)] for [v = (3, 4)]: the vector is normalised first, and
    the projection is [(3/5, 4/5)], not [(3, 4)]. *)
Example proj_on_itself_3_4 :
  exists p u : PVector.t,
    PVector.proj (PVector.mk 3 4 (0, 0)) PVector.Itself = Some (p, u)
    /\ PVector.x p = 3 / 5 /\ PVector.y p = 4 / 5
    /\ PVector.x u = 3 / 5 /\ PVector.y u = 4 / 5.
Proof.
  assert (H5 : hypot 3 4 = 5).
  { unfold hypot. replace (3 * 3 + 4 * 4) with (5 * 5) by ring.
    apply sqrt_square. lra. }
  unfold PVector.proj, PVector.normalize_ip, PVector.mag.
  cbn [PVector.x PVector.y PVector.tail]. rewrite H5.
  assert (E : Reqb 5 0 = false) by (apply Reqb_false; lra).
  rewrite E. cbn [option_map PVector.__mul__ PVector.x PVector.y
    PVector.__init__ PVector.tail fst snd].
  eexists. eexists. split; [reflexivity|]. unfold PVector.set_tail.
  cbn [PVector.x PVector.y]. repeat split; field.
Qed.

(** X20.  The arithmetic of PVectors works on the components and places
    every result at the origin, whatever the tails of the operands.
    Adding a vector and taking it away again gives the components back,
    as do two negations, and a division followed by the multiplication;
    dividing by zero raises [ZeroDivisionError]; the dot product does not
    depend on the order. *)
Theorem arithmetic_on_components (v w : PVector.t) (d : R) :
  PVector.tail (PVector.__add__ v w) = (0, 0)
  /\ PVector.tail (PVector.__sub__ v w) = (0, 0)
  /\ PVector.tail (PVector.__neg__ v) = (0, 0)
  /\ PVector.__sub__ (PVector.__add__ v w) w
     = PVector.mk (PVector.x v) (PVector.y v) (0, 0)
  /\ PVector.__neg__ (PVector.__neg__ v)
     = PVector.mk (PVector.x v) (PVector.y v) (0, 0)
  /\ PVector.__mul__ v (PVector.Vector w) = PVector.__mul__ w (PVector.Vector v)
  /\ (d = 0 -> PVector.__truediv__ v d = Raise ZeroDivisionError)
  /\ (d <> 0 ->
      exists q : PVector.t,
        PVector.__truediv__ v d = Ret q
        /\ PVector.tail q = (0, 0)
        /\ PVector.__mul__ q (PVector.Scalar d)
           = PVector.Scaled (PVector.mk (PVector.x v) (PVector.y v) (0, 0))).
Proof.
  unfold PVector.__add__, PVector.__sub__, PVector.__neg__,
    PVector.__truediv__, PVector.__mul__, PVector.__init__.
  cbn [PVector.x PVector.y PVector.tail fst snd].
  split; [reflexivity|]. split; [reflexivity|]. split; [reflexivity|].
  split; [f_equal; ring|]. split; [f_equal; ring|].
  split; [f_equal; ring|]. split.
  - intros ->. assert (E : Reqb 0 0 = true) by (apply Reqb_true; reflexivity).
    rewrite E. reflexivity.
  - intros Hd. assert (E : Reqb d 0 = false) by (apply Reqb_false; exact Hd).
    rewrite E. eexists. split; [reflexivity|].
    cbn [PVector.x PVector.y PVector.tail]. split; [reflexivity|].
    f_equal. f_equal; field; exact Hd.
Qed.

(** X21.  The magnitude of [PVector(mag, theta)] is the absolute value
    of [mag], for any angle. *)
Theorem mag_of_polar (m theta : R) (xy : pt) :
  PVector.mag (PVector.__init__ (PVector.Mag m) theta xy) = Rabs m.
Proof.
  unfold PVector.__init__, PVector.mag, PVector.from_polar, hypot.
  assert (G : forall r a : R, 0 <= r ->
            sqrt (r * cos a * (r * cos a) + r * sin a * (r * sin a)) = r).
  { intros r a Hr.
    replace (r * cos a * (r * cos a) + r * sin a * (r * sin a))
      with ((sin a * sin a + cos a * cos a) * (r * r)) by ring.
    rewrite sin2_cos2_mul, Rmult_1_l. apply sqrt_square. exact Hr. }
  destruct (Rltb m 0) eqn:E;
    [apply Rltb_true in E | apply Rltb_false in E];
    cbn [PVector.x PVector.y].
  - rewrite G by lra. rewrite Rabs_left by lra. reflexivity.
  - rewrite G by lra. rewrite Rabs_right by lra. reflexivity.
Qed.

(** X22.  [rotate] keeps the length of the vector, whatever the pivot,
    and turns the tail about the pivot: the tail stays as far from the
    pivot as it was. *)
Theorem rotate_keeps_lengths (v : PVector.t) (a : R) (xy : option pt) :
  PVector.mag (PVector.rotate v a xy) = PVector.mag v
  /\ (forall p : pt,
        dist p (PVector.tail (PVector.rotate v a (Some p)))
        = dist p (PVector.tail v)).
Proof.
  unfold PVector.rotate, PVector.rotate_ip, PVector.set_tail, PVector.mag,
    hypot.
  cbn [PVector.x PVector.y PVector.tail]. split.
  - f_equal.
    pose proof (sin2_cos2_mul (a * (PI / 180))) as H.
    set (c := cos (a * (PI / 180))) in *.
    set (s := sin (a * (PI / 180))) in *.
    transitivity ((s * s + c * c)
                  * (PVector.x v * PVector.x v + PVector.y v * PVector.y v));
      [ring|].
    rewrite H. ring.
  - intros p. apply transform2d_rigid.
Qed.

(** *** Diagrams *)

Lemma resultant_from (vs : list PVector.t) :
  forall s : pt,
    fold_left (fun s v => (fst s + PVector.x v, snd s + PVector.y v)) vs s
    = (fst s + fst (resultant vs), snd s + snd (resultant vs)).
Proof.
  unfold resultant. induction vs as [|v vs IH]; intros s; cbn [fold_left].
  - destruct s as [a b]. cbn [fst snd]. apply pair_eq; ring.
  - rewrite IH. rewrite (IH (_ + PVector.x v, _ + PVector.y v)).
    cbn [fst snd]. apply pair_eq; ring.
Qed.

Lemma resultant_cons (v : PVector.t) (vs : list PVector.t) :
  resultant (v :: vs)
  = (PVector.x v + fst (resultant vs), PVector.y v + snd (resultant vs)).
Proof.
  unfold resultant at 1. cbn [fold_left]. rewrite resultant_from.
  cbn [fst snd]. apply pair_eq; ring.
Qed.

Lemma sum_resultant (vs : list PVector.t) :
  PVector.sum vs
  = PVector.mk (fst (resultant vs)) (snd (resultant vs)) (0, 0).
Proof. reflexivity. Qed.

Lemma last_cons (A : Type) (r : list A) :
  forall a d : A, last (a :: r) d = last r a.
Proof.
  induction r as [|b r IH]; intros a d; [reflexivity|].
  change (last (a :: b :: r) d) with (last (b :: r) d).
  rewrite (IH b d), (IH b a). reflexivity.
Qed.

(** After the loop on distinct objects, the tip of the last object is the
    tip of the first plus the vectors of the others. *)
Lemma tipToTail_loop_end (rest : list PVector.loc) :
  forall (h : PVector.heap) (v0 : PVector.loc),
    NoDup (v0 :: rest) ->
    PVector.tip (PVector.tipToTail_loop h v0 rest (last rest v0))
    = (fst (PVector.tip (h v0)) + fst (resultant (map h rest)),
       snd (PVector.tip (h v0)) + snd (resultant (map h rest))).
Proof.
  induction rest as [|v r IH]; intros h v0 Hnd.
  - cbn [PVector.tipToTail_loop last map]. unfold resultant.
    cbn [fold_left fst snd]. destruct (PVector.tip (h v0)) as [a b].
    cbn [fst snd]. apply pair_eq; ring.
  - inversion Hnd as [|? ? Hnot Hnd']; subst.
    cbn [PVector.tipToTail_loop].
    set (h1 := PVector.assign_tail h v (PVector.tip (h v0))).
    rewrite last_cons.
    rewrite (IH h1 v Hnd').
    assert (Hmap : map h1 r = map h r).
    { apply map_ext_in. intros l Hl. subst h1. apply assign_tail_other.
      intros ->. inversion Hnd' as [|? ? Hn _]. contradiction. }
    rewrite Hmap. cbn [map]. rewrite resultant_cons.
    subst h1. rewrite assign_tail_same.
    unfold PVector.tip, PVector.set_tail.
    cbn [PVector.x PVector.y PVector.tail fst snd].
    apply pair_eq; ring.
Qed.

(** X23.  After [tipToTail] on distinct objects the diagram closes on
    the resultant: the tip of the last vector is the tail of the first
    moved by the [sum] of all the vectors. *)
Theorem tipToTail_resultant (h : PVector.heap) (v0 : PVector.loc)
    (rest : list PVector.loc) :
  NoDup (v0 :: rest) ->
  PVector.tip (fst (PVector.tipToTail h (v0 :: rest)) (last rest v0))
  = (fst (PVector.tail (h v0))
     + PVector.x (PVector.sum (map h (v0 :: rest))),
     snd (PVector.tail (h v0))
     + PVector.y (PVector.sum (map h (v0 :: rest)))).
Proof.
  intros Hnd. rewrite sum_resultant. cbn [PVector.x PVector.y map].
  rewrite resultant_cons. cbn [fst snd].
  destruct rest as [|v1 r].
  - cbn [PVector.tipToTail fst last map]. unfold resultant, PVector.tip.
    cbn [fold_left fst snd]. apply pair_eq; ring.
  - cbn [PVector.tipToTail fst]. rewrite (tipToTail_loop_end _ h v0 Hnd).
    unfold PVector.tip. cbn [fst snd]. apply pair_eq; ring.
Qed.

Lemma tipToTail_resultant_witness :
  PVector.tip
    (fst (PVector.tipToTail
            (fst (PVector.fresh [PVector.mk 1 0 (0, 0); PVector.mk 0 1 (0, 0)]))
            [0%nat; 1%nat]) (last [1%nat] 0%nat))
  = (fst (PVector.tail
            (fst (PVector.fresh [PVector.mk 1 0 (0, 0); PVector.mk 0 1 (0, 0)])
               0%nat))
     + PVector.x
         (PVector.sum
            (map (fst (PVector.fresh
                         [PVector.mk 1 0 (0, 0); PVector.mk 0 1 (0, 0)]))
               [0%nat; 1%nat])),
     snd (PVector.tail
            (fst (PVector.fresh [PVector.mk 1 0 (0, 0); PVector.mk 0 1 (0, 0)])
               0%nat))
     + PVector.y
         (PVector.sum
            (map (fst (PVector.fresh
                         [PVector.mk 1 0 (0, 0); PVector.mk 0 1 (0, 0)]))
               [0%nat; 1%nat]))).
Proof.
  apply (tipToTail_resultant
           (fst (PVector.fresh [PVector.mk 1 0 (0, 0); PVector.mk 0 1 (0, 0)]))
           0%nat [1%nat]).
  repeat constructor; simpl; intuition discriminate.
Defined.

Lemma to_vector_tail (f : PVector.form) (m : list ascii) (v : PVector.t) :
  PVector.to_vector f m = Ret v -> PVector.tail v = (0, 0).
Proof.
  unfold PVector.to_vector. destruct f.
  - destruct (PVector.piece _ 0) as [s0| |]; try discriminate. cbn [bind].
    destruct (PVector.float s0) as [a| |]; try discriminate. cbn [bind].
    destruct (PVector.piece _ 1) as [s1| |]; try discriminate. cbn [bind].
    destruct (PVector.float s1) as [b| |]; try discriminate. cbn [bind].
    intros H. injection H as <-. reflexivity.
  - destruct (PVector.piece _ 0) as [s0| |]; try discriminate. cbn [bind].
    destruct (PVector.float s0) as [a| |]; try discriminate. cbn [bind].
    destruct (PVector.piece _ 1) as [s1| |]; try discriminate. cbn [bind].
    destruct (PVector.float s1) as [b| |]; try discriminate. cbn [bind].
    intros H. injection H as <-. unfold PVector.__init__.
    destruct (Rltb a 0); reflexivity.
Qed.

Lemma convert_all_tails (ts : list term) :
  forall vs : list PVector.t,
    convert_all ts = Ret vs ->
    Forall (fun v => PVector.tail v = (0, 0)) vs.
Proof.
  induction ts as [|[[neg f] m] ts IH]; intros vs H; cbn [convert_all] in H.
  - injection H as <-. constructor.
  - unfold term_vector in H.
    destruct (PVector.to_vector f m) as [v| |] eqn:Ev; try discriminate.
    cbn [bind] in H.
    destruct (convert_all ts) as [vs'| |]; try discriminate.
    cbn [bind] in H. injection H as <-. constructor; [|apply IH; reflexivity].
    destruct neg; [reflexivity|]. exact (to_vector_tail f m v Ev).
Qed.

Lemma fresh_values (vs : list PVector.t) :
  map (fst (PVector.fresh vs)) (snd (PVector.fresh vs)) = vs.
Proof.
  unfold PVector.fresh. cbn [fst snd].
  set (d := PVector.__init__ PVector.NoMag 0 (0, 0)).
  induction vs as [|v vs IH]; [reflexivity|].
  cbn [List.length seq map nth]. f_equal.
  rewrite <- seq_shift, map_map. exact IH.
Qed.

Lemma chained_of_heap (h : PVector.heap) (locs : list PVector.loc) :
  (forall i a b,
     nth_error locs i = Some a -> nth_error locs (S i) = Some b ->
     PVector.tail (h b) = PVector.tip (h a)) ->
  chained (map h locs).
Proof.
  induction locs as [|a [|b r] IH]; intros H; cbn [map chained]; auto.
  split; [exact (H 0%nat a b eq_refl eq_refl)|].
  apply IH. intros i x y Hx Hy. exact (H (S i) x y Hx Hy).
Qed.

Lemma resultant_ext (h h' : PVector.heap) (locs : list PVector.loc) :
  (forall l, PVector.x (h' l) = PVector.x (h l)
             /\ PVector.y (h' l) = PVector.y (h l)) ->
  resultant (map h' locs) = resultant (map h locs).
Proof.
  intros H. induction locs as [|l r IH]; [reflexivity|].
  cbn [map]. rewrite !resultant_cons, IH.
  destruct (H l) as [-> ->]. reflexivity.
Qed.

Lemma last_map (A B : Type) (f : A -> B) (r : list A) (a : A) :
  last (map f r) (f a) = f (last r a).
Proof.
  induction r as [|b r IH]; [reflexivity|].
  cbn [map]. rewrite !last_cons.
  clear IH. revert b. induction r as [|c r IH]; intros b; [reflexivity|].
  cbn [map]. rewrite !last_cons. apply IH.
Qed.

(** X24.  Whatever string it is given, the list [parse] returns is a
    tip-to-tail chain that starts at the origin: each vector starts at the
    tip of the one before it, and the tip of the last is the [sum] of the
    list. *)
Theorem parse_chain (s : string) (vs : list PVector.t) :
  PVector.parse s = Ret vs ->
  chained vs
  /\ (forall (v0 : PVector.t) (rest : list PVector.t),
        vs = v0 :: rest ->
        PVector.tail v0 = (0, 0)
        /\ PVector.tip (last rest v0)
           = (PVector.x (PVector.sum vs), PVector.y (PVector.sum vs))).
Proof.
  rewrite parse_unfold.
  destruct (convert_all (terms s)) as [vs0| |] eqn:Ec; try discriminate.
  cbn [bind]. destruct (left_in_expr s); [|discriminate].
  intros H. injection H as <-.
  pose proof (convert_all_tails _ _ Ec) as Htails.
  pose proof (fresh_values vs0) as Hval.
  unfold laid_out, PVector.values.
  set (h := fst (PVector.fresh vs0)) in *.
  assert (Hlocs : snd (PVector.fresh vs0) = seq 0 (List.length vs0))
    by reflexivity.
  rewrite Hlocs in *.
  pose proof (seq_NoDup (List.length vs0) 0) as Hnd.
  destruct (seq 0 (List.length vs0)) as [|l0 locs] eqn:Eseq.
  { cbn [PVector.tipToTail fst snd map]. split; [exact I|].
    intros v0 rest Hv. discriminate. }
  assert (Hloop : fst (PVector.tipToTail h (l0 :: locs))
                  = PVector.tipToTail_loop h l0 locs)
    by (destruct locs; reflexivity).
  assert (Hsnd : snd (PVector.tipToTail h (l0 :: locs)) = l0 :: locs)
    by (destruct locs; reflexivity).
  rewrite Hsnd, Hloop.
  destruct (tipToTail_loop_spec locs h l0 Hnd) as [H1 [H2 [H3 H4]]].
  split; [apply chained_of_heap; exact H4|].
  intros v0 rest Hv. cbn [map] in Hv. injection Hv as <- <-.
  assert (Ht0 : PVector.tail (h l0) = (0, 0)).
  { rewrite <- Hval in Htails. cbn [map] in Htails.
    inversion Htails. assumption. }
  split; [rewrite H1; exact Ht0|].
  rewrite last_map, (tipToTail_loop_end locs h l0 Hnd).
  rewrite sum_resultant. cbn [PVector.x PVector.y].
  change (PVector.tipToTail_loop h l0 locs l0
          :: map (PVector.tipToTail_loop h l0 locs) locs)
    with (map (PVector.tipToTail_loop h l0 locs) (l0 :: locs)).
  rewrite (resultant_ext h _ (l0 :: locs) H3). cbn [map].
  rewrite resultant_cons. unfold PVector.tip. rewrite Ht0.
  cbn [fst snd]. apply pair_eq; ring.
Qed.

Lemma parse_chain_witness :
  chained [PVector.mk 1 0 (0, 0); PVector.mk 0 1 (1, 0)].
Proof.
  apply (parse_chain "(1,0)+(0,1)"
           [PVector.mk 1 0 (0, 0); PVector.mk 0 1 (1, 0)]).
  exact parse_example.
Defined.

Lemma list_ascii_of_string_app (s1 s2 : string) :
  list_ascii_of_string (s1 ++ s2)
  = list_ascii_of_string s1 ++ list_ascii_of_string s2.
Proof.
  induction s1 as [|c s1 IH]; [reflexivity|].
  cbn [String.append list_ascii_of_string app]. rewrite IH. reflexivity.
Qed.

Lemma stripped_insert (s1 s2 : string) (c : ascii) :
  stripped (s1 ++ String c s2)
  = stripped s1 ++ (if Re.space c then [] else [c]) ++ stripped s2.
Proof.
  unfold stripped, Re.remove_space.
  rewrite list_ascii_of_string_app. cbn [list_ascii_of_string].
  rewrite filter_app. cbn [filter]. destruct (Re.space c); reflexivity.
Qed.

(** X25.  The white space [parse] removes is the tab, the line feed,
    the vertical tab, the form feed, the carriage return, the separators
    28 to 31, the space, NEL (133) and the no-break space (160).  One of
    these put anywhere in a string, even inside a numeral, changes
    neither the list returned nor whether a [ValueError] is raised; any
    other character put into the string stays in the text that is
    matched. *)
Theorem parse_ignores_space (s1 s2 : string) (c : ascii) :
  (In (nat_of_ascii c) [9; 10; 11; 12; 13; 28; 29; 30; 31; 32; 133; 160]%nat ->
   stripped (s1 ++ String c s2) = stripped (s1 ++ s2)
   /\ (forall vs : list PVector.t,
         PVector.parse (s1 ++ String c s2) = Ret vs
         <-> PVector.parse (s1 ++ s2) = Ret vs)
   /\ (is_ValueError (PVector.parse (s1 ++ String c s2))
       <-> is_ValueError (PVector.parse (s1 ++ s2))))
  /\ (~ In (nat_of_ascii c)
          [9; 10; 11; 12; 13; 28; 29; 30; 31; 32; 133; 160]%nat ->
      stripped (s1 ++ String c s2) = stripped s1 ++ c :: stripped s2).
Proof.
  assert (Hsp : Re.space c = true <->
            In (nat_of_ascii c)
              [9; 10; 11; 12; 13; 28; 29; 30; 31; 32; 133; 160]%nat).
  { unfold Re.space. set (n := nat_of_ascii c). cbn [In].
    rewrite !orb_true_iff, !andb_true_iff, !Nat.leb_le, !Nat.eqb_eq. lia. }
  split.
  - intros Hin. apply Hsp in Hin.
    assert (Hs : stripped (s1 ++ String c s2) = stripped (s1 ++ s2)).
    { rewrite stripped_insert, Hin. unfold stripped, Re.remove_space.
      rewrite list_ascii_of_string_app, filter_app. reflexivity. }
    split; [exact Hs|].
    rewrite !parse_unfold. unfold terms, left_in_expr. rewrite Hs.
    destruct (convert_all _) as [vs0|e|]; cbn [bind].
    + destruct (snd (lex _ _)) as [|a r].
      * split; [tauto|]. split; intros [m Hm]; discriminate.
      * split; [split; discriminate|].
        split; intros _; eexists; reflexivity.
    + split; [split; discriminate | tauto].
    + split; [split; discriminate | tauto].
  - intros Hn. rewrite stripped_insert.
    destruct (Re.space c) eqn:E; [|reflexivity].
    exfalso. apply Hn, Hsp. reflexivity.
Qed.

(** ** Intersections of segments *)

Lemma intersect_nonparallel_value (self other : Line.t) :
  det self other <> 0 ->
  Line.intersect self other
  = (if Line.in_bound self (cramer_s1 self other)
        && Line.in_bound other (cramer_s2 self other)
     then Some (Line.HPoint (Line.point self (cramer_s1 self other)))
     else None).
Proof.
  unfold det, cramer_s1, cramer_s2, det, Line.intersect.
  destruct (Line.u self) as [u1x u1y], (Line.u other) as [u2x u2y].
  cbn [fst snd]. intros Hdet.
  destruct (Reqb (u2x * u1y - u1x * u2y) 0) eqn:E;
    [apply Reqb_true in E; contradiction|].
  cbn [negb]. destruct (Line.in_bound self _); [|reflexivity].
  destruct (Line.in_bound other _); reflexivity.
Qed.

Lemma cramer_common_point (self other : Line.t) (a b : R) :
  det self other <> 0 ->
  (Line.point self a = Line.point other b <->
   a = cramer_s1 self other /\ b = cramer_s2 self other).
Proof.
  unfold det, cramer_s1, cramer_s2, det, Line.point.
  destruct self as [[p1x p1y] sz1 l1 [u1x u1y] w1].
  destruct other as [[p2x p2y] sz2 l2 [u2x u2y] w2].
  cbn [Line.u Line.pos fst snd]. intros Hdet.
  set (D := u2x * u1y - u1x * u2y) in *. split.
  - intros H. injection H as Hx Hy.
    split; field_simplify_eq; trivial; unfold D; nra.
  - intros [-> ->]. apply pair_eq; field_simplify_eq; trivial; unfold D; ring.
Qed.

(** X26.  On two segments [intersect] never answers [True], and a point
    it returns always lies on the segment asked, within [[0, length]].
    When the segments are not parallel it returns a point exactly when
    they have a common point, and that point is the one returned. *)
Theorem intersect_of_segments (self other : Line.t) (l1 l2 : R) (p : pt) :
  Line.length self = Some l1 -> Line.length other = Some l2 ->
  Line.intersect self other <> Some Line.HTrue
  /\ (Line.intersect self other = Some (Line.HPoint p) ->
      on_segment self l1 p)
  /\ (det self other <> 0 ->
      (Line.intersect self other = Some (Line.HPoint p) <->
       on_segment self l1 p /\ on_segment other l2 p)).
Proof.
  intros H1 H2.
  assert (Hpar : det self other = 0 ->
            Line.intersect self other <> Some Line.HTrue
            /\ (Line.intersect self other = Some (Line.HPoint p) ->
                on_segment self l1 p)).
  { intros Hdet.
    rewrite (intersect_parallel_segments self other l1 l2 Hdet H1 H2).
    cbv zeta.
    set (lo := Rmax 0 _). set (hi := Rmin l1 _).
    destruct (Rleb _ Line.resolution); [|split; discriminate].
    destruct (Rleb lo hi) eqn:E; [|split; discriminate].
    apply Rleb_true in E. split; [discriminate|].
    intros H. injection H as <-. exists ((lo + hi) / 2).
    split; [|reflexivity].
    assert (0 <= lo) by (subst lo; apply Rmax_l).
    assert (hi <= l1) by (subst hi; apply Rmin_l).
    lra. }
  assert (Hnon : det self other <> 0 ->
            Line.intersect self other <> Some Line.HTrue
            /\ (Line.intersect self other = Some (Line.HPoint p) <->
                on_segment self l1 p /\ on_segment other l2 p)).
  { intros Hdet. rewrite (intersect_nonparallel_value self other Hdet).
    pose proof (in_bound_spec self (cramer_s1 self other)) as B1.
    pose proof (in_bound_spec other (cramer_s2 self other)) as B2.
    rewrite H1 in B1. rewrite H2 in B2.
    destruct (Line.in_bound self _) eqn:E1;
      destruct (Line.in_bound other _) eqn:E2; cbn [andb].
    - split; [discriminate|]. split.
      + intros H. injection H as <-. split.
        * exists (cramer_s1 self other). split; [tauto | reflexivity].
        * exists (cramer_s2 self other). split; [tauto|].
          apply (cramer_common_point self other _ _ Hdet). auto.
      + intros [[a [Ha ->]] [b [Hb Hab]]].
        apply (cramer_common_point self other a b Hdet) in Hab.
        destruct Hab as [-> _]. reflexivity.
    - split; [discriminate|]. split; [discriminate|].
      intros [[a [Ha ->]] [b [Hb Hab]]].
      apply (cramer_common_point self other a b Hdet) in Hab.
      destruct Hab as [_ ->]. exfalso.
      assert (false = true) by (apply B2; exact Hb). discriminate.
    - split; [discriminate|]. split; [discriminate|].
      intros [[a [Ha ->]] [b [Hb Hab]]].
      apply (cramer_common_point self other a b Hdet) in Hab.
      destruct Hab as [-> _]. exfalso.
      assert (false = true) by (apply B1; exact Ha). discriminate.
    - split; [discriminate|]. split; [discriminate|].
      intros [[a [Ha ->]] [b [Hb Hab]]].
      apply (cramer_common_point self other a b Hdet) in Hab.
      destruct Hab as [-> _]. exfalso.
      assert (false = true) by (apply B1; exact Ha). discriminate. }
  destruct (Req_dec_T (det self other) 0) as [Hd|Hd].
  - destruct (Hpar Hd) as [A B]. split; [exact A|]. split; [exact B|].
    intros Hn. contradiction.
  - destruct (Hnon Hd) as [A B]. split; [exact A|]. split; [|intros _; exact B].
    intros H. apply B in H. tauto.
Qed.

Lemma intersect_of_segments_witness :
  Line.intersect
    (Line.mk (0, 0) (2, 0) (Some 2) (1, 0) 1)
    (Line.mk (1, -1) (0, 2) (Some 2) (0, 1) 1)
  <> Some Line.HTrue.
Proof.
  apply (intersect_of_segments
           (Line.mk (0, 0) (2, 0) (Some 2) (1, 0) 1)
           (Line.mk (1, -1) (0, 2) (Some 2) (0, 1) 1) 2 2 (1, 0));
    reflexivity.
Defined.
